(** * KOOM native memory map: address resolution and backtrace formatting

    A shallow embedding of [koom-native/src/main/jni/src/memory_map.cpp]
    together with the properties its design document states about it.

    Machine integers ([uintptr_t], [size_t], the ELF field types) are
    integers of [Z] with the wrap-around written out; process memory is a
    partial map from addresses to bytes, a load from an unmapped address
    being a fault of the whole process; the [std::set] of entries is the
    list of its elements in iteration order. *)

From Stdlib Require Import ZArith Lia Bool String Ascii.
From stdpp Require Import base option list.

Local Open Scope Z_scope.

(** ** Outcomes of a call

    The process either carries on with a value or dies. *)

Inductive fault : Type :=
  | SegFault (addr : Z)      (* load from an unmapped address *)
  | NullDeref                (* member access through a null pointer *)
  | OutOfBounds.             (* pointer formed outside the line it indexes *)

Inductive result (A : Type) : Type :=
  | Ok (a : A)
  | Fault (f : fault).

Arguments Ok {A} a.
Arguments Fault {A} f.

Definition bind {A B : Type} (m : result A) (k : A -> result B) : result B :=
  match m with
  | Ok a => k a
  | Fault f => Fault f
  end.

Notation "x <- m ;; k" := (bind m (fun x => k))
  (at level 100, m at next level, right associativity).

(** ** Constants of the system headers *)

(* <sys/mman.h> *)
Definition PROT_READ : Z := 1.
Definition PROT_EXEC : Z := 4.

(* <elf.h> *)
Definition SELFMAG : Z := 4.
Definition ELFMAG : list Z := [127; 69; 76; 70].   (* "\177ELF" *)
Definition PT_LOAD : Z := 1.
Definition PF_X : Z := 1.

(** ** MapEntry

    The struct is declared in [memory_map.h]; the fields are the ones the
    source file reads and writes. *)

Record MapEntry : Type := mkMapEntry {
  start : Z;
  end_ : Z;
  offset : Z;
  load_bias : Z;
  elf_start_offset : Z;
  name : string;
  flags : Z;
  init : bool;
  valid : bool
}.

Definition set_load_bias (v : Z) (e : MapEntry) : MapEntry :=
  mkMapEntry (start e) (end_ e) (offset e) v (elf_start_offset e)
             (name e) (flags e) (init e) (valid e).

Definition set_elf_start_offset (v : Z) (e : MapEntry) : MapEntry :=
  mkMapEntry (start e) (end_ e) (offset e) (load_bias e) v
             (name e) (flags e) (init e) (valid e).

Definition set_init (b : bool) (e : MapEntry) : MapEntry :=
  mkMapEntry (start e) (end_ e) (offset e) (load_bias e) (elf_start_offset e)
             (name e) (flags e) b (valid e).

Definition set_valid (b : bool) (e : MapEntry) : MapEntry :=
  mkMapEntry (start e) (end_ e) (offset e) (load_bias e) (elf_start_offset e)
             (name e) (flags e) (init e) b.

(** Modelled from the spec: the six-argument constructor of [MapEntry]
    ([memory_map.h] is not among the sources).  A fresh entry is not yet
    inspected ([init = false], [valid = false]), carries no inherited ELF
    start offset, and its bias is the zero bias the fallback of resolution
    speaks of. *)
Definition new_MapEntry (s e off : Z) (nm : string) (fl : Z) : MapEntry :=
  mkMapEntry s e off 0 0 nm fl false false.

(** ** What the result of [dladdr] and of [sscanf] look like *)

Record Dl_info : Type := mkDl_info {
  dli_fname : option string;
  dli_sname : option string;
  dli_saddr : Z
}.

(** The values [sscanf] left in the locals of [ParseLine].  [assigned] is its
    return value; a local the conversion did not reach holds whatever it held
    before the call. *)
Record scan_result : Type := mkScan {
  assigned : Z;
  s_start : Z;
  s_end : Z;
  s_permissions : list ascii;    (* char permissions[5] *)
  s_offset : Z;
  s_name_pos : Z
}.

(** ** The environment of the code

    What the source file takes from outside itself: the pointer width it is
    compiled for, the memory of the process, the declarations of
    [memory_map.h], and the C library. *)

Class Env : Type := {
  lp64 : bool;                                    (* defined(__LP64__) *)
  mem : Z -> option Z;                            (* byte at an address *)
  compare_entries : MapEntry -> MapEntry -> bool; (* ordering of entries_ *)
  pc_entry : Z -> MapEntry;                       (* MapEntry(uintptr_t pc) *)
  NeedIgnore : MapEntry -> bool;                  (* MapEntry::NeedIgnore *)
  sscanf_maps : string -> scan_result;            (* sscanf with the maps format *)
  proc_self_maps : option string;                 (* /proc/self/maps, if it opens *)
  dladdr : Z -> option Dl_info;                   (* None: dladdr returned 0 *)
  cxa_demangle : string -> option string          (* None: returned nullptr *)
}.

Section Code.
Context `{env : Env}.

(** ** Machine words *)

Definition ptr_bits : Z := if lp64 then 64 else 32.
Definition ptr_mod : Z := 2 ^ ptr_bits.

(** Arithmetic on [uintptr_t] and [size_t]. *)
Definition wrap (z : Z) : Z := z mod ptr_mod.

(** Sizes and offsets of [ElfW(Ehdr)] and [ElfW(Phdr)]. *)
Definition sizeof_Half : Z := 2.
Definition sizeof_Word : Z := 4.
Definition sizeof_Off : Z := if lp64 then 8 else 4.
Definition sizeof_Addr : Z := if lp64 then 8 else 4.
Definition sizeof_Phdr : Z := if lp64 then 56 else 32.

Definition offsetof_e_phoff : Z := if lp64 then 32 else 28.
Definition offsetof_e_phnum : Z := if lp64 then 56 else 44.
Definition offsetof_p_type : Z := 0.
Definition offsetof_p_flags : Z := if lp64 then 4 else 24.
Definition offsetof_p_offset : Z := if lp64 then 8 else 4.
Definition offsetof_p_vaddr : Z := if lp64 then 16 else 8.

(** ** Memory *)

(** The [n] bytes at [addr], lowest address first. *)
Fixpoint load_bytes (addr : Z) (n : nat) : result (list Z) :=
  match n with
  | O => Ok []
  | S n' =>
      match mem addr with
      | None => Fault (SegFault addr)
      | Some b => bs <- load_bytes (addr + 1) n' ;; Ok (b :: bs)
      end
  end.

(** Value of a list of bytes, lowest first (the targets are little-endian). *)
Fixpoint le_value (bs : list Z) : Z :=
  match bs with
  | [] => 0
  | b :: bs' => b + 256 * le_value bs'
  end.

(** [*reinterpret_cast<T *>(addr)] for a [T] of [size] bytes. *)
Definition deref (addr size : Z) : result Z :=
  bs <- load_bytes addr (Z.to_nat size) ;; Ok (le_value bs).

(** ** GetVal *)

Definition GetVal (entry : MapEntry) (addr size : Z) : result (option Z) :=
  if (Z.land (flags entry) PROT_READ =? 0)
     || (addr <? start entry)
     || (end_ entry <? wrap (addr + size))
  then Ok None
  else if negb (Z.land addr (size - 1) =? 0)
  then Ok None
  else v <- deref addr size ;; Ok (Some v).

(** ** ValidElf *)

Definition ValidElf (entry : MapEntry) : result bool :=
  let addr := start entry in
  if (ptr_mod <=? addr + SELFMAG) || (end_ entry <=? addr + SELFMAG)
  then Ok false
  else bs <- load_bytes addr (Z.to_nat SELFMAG) ;;
       Ok (bool_decide (bs = ELFMAG)).

(** ** ReadLoadbias *)

(** The body of the [for] loop, [n] iterations left, [addr] the address of
    the program header under the cursor. *)
Fixpoint phdr_loop (n : nat) (entry : MapEntry) (addr : Z) : result MapEntry :=
  match n with
  | O => Ok entry
  | S n' =>
      ty <- GetVal entry (wrap (addr + offsetof_p_type)) sizeof_Word ;;
      match ty with
      | None => Ok entry
      | Some p_type =>
          fl <- GetVal entry (wrap (addr + offsetof_p_flags)) sizeof_Word ;;
          match fl with
          | None => Ok entry
          | Some p_flags =>
              po <- GetVal entry (wrap (addr + offsetof_p_offset)) sizeof_Off ;;
              match po with
              | None => Ok entry
              | Some p_offset =>
                  if (p_type =? PT_LOAD) && negb (Z.land p_flags PF_X =? 0)
                  then
                    pv <- GetVal entry (wrap (addr + offsetof_p_vaddr)) sizeof_Addr ;;
                    match pv with
                    | None => Ok entry
                    | Some p_vaddr =>
                        Ok (set_load_bias (wrap (p_vaddr - p_offset)) entry)
                    end
                  else phdr_loop n' entry (wrap (addr + sizeof_Phdr))
              end
          end
      end
  end.

Definition ReadLoadbias (entry0 : MapEntry) : result MapEntry :=
  let entry := set_load_bias 0 entry0 in
  let addr := start entry in
  pn <- GetVal entry (wrap (addr + offsetof_e_phnum)) sizeof_Half ;;
  match pn with
  | None => Ok entry
  | Some e_phnum =>
      po <- GetVal entry (wrap (addr + offsetof_e_phoff)) sizeof_Off ;;
      match po with
      | None => Ok entry
      | Some e_phoff =>
          phdr_loop (Z.to_nat e_phnum) entry (wrap (addr + e_phoff))
      end
  end.

(** ** Init *)

Definition Init (entry : MapEntry) : result MapEntry :=
  if init entry then Ok entry
  else
    let entry := set_init true entry in
    ok <- ValidElf entry ;;
    if ok then ReadLoadbias (set_valid true entry) else Ok entry.

(** ** entries_

    [std::set<MapEntry *, compare_entries>], as the list of its elements in
    iteration order.  An iterator is an index into the list; [end()] is
    [None]. *)

(** Index of the first element that is not ordered before [key]. *)
Fixpoint lower_bound (key : MapEntry) (l : list MapEntry) : nat :=
  match l with
  | [] => O
  | e :: l' => if compare_entries e key then S (lower_bound key l') else O
  end.

(** [entries_.find(key)]: the element at the lower bound, unless [key] is
    ordered before it. *)
Definition set_find (key : MapEntry) (l : list MapEntry) : option (nat * MapEntry) :=
  let i := lower_bound key l in
  match l !! i with
  | Some e => if compare_entries key e then None else Some (i, e)
  | None => None
  end.

(** [entries_.insert(key)]: nothing happens when an equivalent element is
    there already. *)
Definition set_insert (key : MapEntry) (l : list MapEntry) : list MapEntry :=
  match set_find key l with
  | Some _ => l
  | None => let i := lower_bound key l in take i l ++ key :: drop i l
  end.

(** ** ParseLine *)

Definition newline : ascii := Ascii.ascii_of_nat 10.

Fixpoint string_drop (n : nat) (s : string) : string :=
  match n, s with
  | O, _ => s
  | S n', String _ s' => string_drop n' s'
  | S _, EmptyString => EmptyString
  end.

Definition ends_with_newline (s : string) : bool :=
  match String.get (String.length s - 1) s with
  | Some c => Ascii.eqb c newline
  | None => false
  end.

Definition ParseLine (line : string) : result (option MapEntry) :=
  let r := sscanf_maps line in
  if assigned r <? 2 then Ok None
  else if (s_name_pos r <? 0) || (Z.of_nat (String.length line) <? s_name_pos r)
  then Fault OutOfBounds
  else
    let name := string_drop (Z.to_nat (s_name_pos r)) line in
    let name_len := String.length name in
    let name_len :=
      if negb (Nat.eqb name_len 0) && ends_with_newline name
      then (name_len - 1)%nat else name_len in
    let flags := 0 in
    let flags :=
      if Ascii.eqb (nth 0 (s_permissions r) Ascii.zero) "r"%char
      then Z.lor flags PROT_READ else flags in
    let flags :=
      if Ascii.eqb (nth 2 (s_permissions r) Ascii.zero) "x"%char
      then Z.lor flags PROT_EXEC else flags in
    let entry :=
      new_MapEntry (s_start r) (s_end r) (s_offset r)
                   (String.substring 0 name_len name) flags in
    if Z.land flags PROT_READ =? 0
    then Ok (Some (set_valid false (set_init true (set_load_bias 0 entry))))
    else Ok (Some entry).

(** ** ReadMaps *)

(** One call of [fgets] with a buffer of [S n] bytes: at most [n] characters,
    the newline included and last.  Returns the line and what is left of the
    stream. *)
Fixpoint fgets (n : nat) (s : string) : string * string :=
  match n, s with
  | O, _ => (EmptyString, s)
  | _, EmptyString => (EmptyString, EmptyString)
  | S n', String c s' =>
      if Ascii.eqb c newline then (String c EmptyString, s')
      else let (l, r) := fgets n' s' in (String c l, r)
  end.

(** The lines the [while] loop sees; [fuel] bounds the number of calls. *)
Fixpoint fgets_lines (fuel : nat) (s : string) : list string :=
  match fuel, s with
  | O, _ => []
  | _, EmptyString => []
  | S fuel', _ => let (l, r) := fgets 1023 s in l :: fgets_lines fuel' r
  end.

(** The body of the [while] loop over the lines read. *)
Fixpoint read_lines (lines : list string) (entries : list MapEntry)
  : result (bool * list MapEntry) :=
  match lines with
  | [] => Ok (true, entries)
  | line :: rest =>
      pe <- ParseLine line ;;
      match pe with
      | None => Ok (false, entries)
      | Some entry =>
          match set_find entry entries with
          | None => read_lines rest (set_insert entry entries)
          | Some _ => read_lines rest entries
          end
      end
  end.

Definition maps_lines (content : string) : list string :=
  fgets_lines (String.length content) content.

Definition ReadMaps (entries : list MapEntry) : result (bool * list MapEntry) :=
  match proc_self_maps with
  | None => Ok (false, entries)
  | Some content => read_lines (maps_lines content) entries
  end.

(** ** CalculateRelPc *)

(** Lines 180 to 189: the lookup, with one rebuild of the table on a miss.
    Returns the table after it and the iterator found. *)
Definition find_entry (entries : list MapEntry) (pc : Z)
  : result (list MapEntry * option (nat * MapEntry)) :=
  let pc_entry := pc_entry pc in
  entries1 <-
    match set_find pc_entry entries with
    | None => r <- ReadMaps entries ;; Ok (snd r)
    | Some _ => Ok entries
    end ;;
  Ok (entries1, set_find pc_entry entries1).

(** Lines 194 to 211, once [rel_pc] is known not to be null: the table and
    the value stored through [rel_pc]. *)
Definition store_rel_pc (entries : list MapEntry) (i : nat) (entry : MapEntry) (pc : Z)
  : result (list MapEntry * Z) :=
  let fallback := Ok (entries, wrap (pc - start entry + load_bias entry)) in
  if negb (valid entry) && negb (Nat.eqb i 0) then
    match entries !! (i - 1)%nat with
    | None => fallback
    | Some prev_entry =>
        if (flags prev_entry =? PROT_READ)
           && (offset prev_entry <? offset entry)
           && String.eqb (name prev_entry) (name entry)
        then
          prev_entry <- Init prev_entry ;;
          let entries := <[(i - 1)%nat := prev_entry]> entries in
          if valid prev_entry then
            let entry := set_elf_start_offset (offset prev_entry) entry in
            Ok (<[i := entry]> entries,
                wrap (pc - start entry + offset entry + load_bias prev_entry))
          else
            Ok (entries, wrap (pc - start entry + load_bias entry))
        else fallback
    end
  else fallback.

(** [rel_pc] is [None] for a null pointer and [Some v] for a pointer to a
    variable holding [v]; the result gives the table, the entry returned (as
    its iterator) and what the variable holds afterwards. *)
Definition CalculateRelPc (entries : list MapEntry) (pc : Z) (rel_pc : option Z)
  : result (list MapEntry * option nat * option Z) :=
  found <- find_entry entries pc ;;
  match found with
  | (entries, None) => Ok (entries, None, rel_pc)
  | (entries, Some (i, entry)) =>
      entry <- Init entry ;;
      let entries := <[i := entry]> entries in
      match rel_pc with
      | None => Ok (entries, Some i, None)
      | Some _ =>
          r <- store_rel_pc entries i entry pc ;;
          Ok (fst r, Some i, Some (snd r))
      end
  end.

(** ** snprintf *)

Definition digit_char (d : Z) : ascii :=
  if d <? 10 then Ascii.ascii_of_nat (Z.to_nat (48 + d))
  else Ascii.ascii_of_nat (Z.to_nat (87 + d)).

Fixpoint digits_loop (fuel : nat) (base z : Z) (acc : string) : string :=
  match fuel with
  | O => acc
  | S fuel' =>
      let acc := String (digit_char (z mod base)) acc in
      if z / base =? 0 then acc else digits_loop fuel' base (z / base) acc
  end.

(** The digits of a number that is not negative, most significant first. *)
Definition digits (base z : Z) : string :=
  digits_loop (S (Z.to_nat (Z.log2 z))) base z EmptyString.

Fixpoint zeros (n : nat) : string :=
  match n with
  | O => EmptyString
  | S n' => String "0"%char (zeros n')
  end.

(** A field of at least [width] characters, filled with zeros on the left. *)
Definition zero_pad (width : nat) (s : string) : string :=
  (zeros (width - String.length s) ++ s)%string.

(** [%02zd] of a [size_t]: the value is read as signed. *)
Definition fmt_02zd (n : Z) : string :=
  let n := wrap n in
  if n <? ptr_mod / 2 then zero_pad 2 (digits 10 n)
  else ("-" ++ zero_pad 1 (digits 10 (ptr_mod - n)))%string.

(** [%" PAD_PTR "]. *)
Definition fmt_PAD_PTR (v : Z) : string :=
  zero_pad (if lp64 then 16 else 8) (digits 16 (wrap v)).

(** [%" PRIxPTR "] and [%" PRIuPTR "]. *)
Definition fmt_PRIxPTR (v : Z) : string := digits 16 (wrap v).
Definition fmt_PRIuPTR (v : Z) : string := digits 10 (wrap v).

(** [snprintf] into a buffer of [size] bytes keeps [size - 1] characters. *)
Definition snprintf (size : nat) (s : string) : string :=
  String.substring 0 (size - 1) s.

(** ** FormatBacktrace *)

(** The variables that live across iterations of the loop. *)
Record fmt_state : Type := mkFmt {
  f_entries : list MapEntry;   (* entries_ *)
  f_str : string;              (* str *)
  f_offset : Z;                (* offset *)
  f_symbol : option string     (* symbol *)
}.

Definition nl : string := String newline EmptyString.

(** One iteration, for the frame [frame] at index [cursor].  [inl] is the
    [break]: the loop ends with that state. *)
Definition format_frame (st : fmt_state) (cursor : nat) (frame : Z)
  : result (fmt_state + fmt_state) :=
  let info := dladdr frame in
  let offset := match info with Some i => dli_saddr i | None => f_offset st end in
  let symbol := match info with Some i => dli_sname i | None => f_symbol st end in
  let info_dli_fname := match info with Some i => dli_fname i | None => None end in
  let rel_pc := offset in
  r <- CalculateRelPc (f_entries st) frame (Some rel_pc) ;;
  let '(entries, it, rel_pc_cell) := r in
  let rel_pc := default rel_pc rel_pc_cell in
  let entry := match it with Some i => entries !! i | None => None end in
  match entry with
  | None => Fault NullDeref                     (* entry->NeedIgnore() *)
  | Some e =>
      if NeedIgnore e then Ok (inl (mkFmt entries (f_str st) offset symbol))
      else
        let soname :=
          match entry with
          | Some e => Some (name e)
          | None => info_dli_fname
          end in
        let soname := default "<unknown>"%string soname in
        let offset_buf :=
          match entry with
          | Some e =>
              if negb (elf_start_offset e =? 0)
              then snprintf 128
                     (" (offset 0x" ++ fmt_PRIxPTR (elf_start_offset e) ++ ")")%string
              else EmptyString
          | None => EmptyString
          end in
        let buf :=
          match symbol with
          | Some sym =>
              let name := default sym (cxa_demangle sym) in
              snprintf 1024
                ("          #" ++ fmt_02zd (Z.of_nat cursor) ++ "  pc "
                 ++ fmt_PAD_PTR rel_pc ++ "  " ++ soname ++ offset_buf
                 ++ " (" ++ name ++ "+" ++ fmt_PRIuPTR (frame - offset) ++ ")"
                 ++ nl)%string
          | None =>
              snprintf 1024
                ("          #" ++ fmt_02zd (Z.of_nat cursor) ++ "  pc "
                 ++ fmt_PAD_PTR rel_pc ++ "  " ++ soname ++ offset_buf
                 ++ nl)%string
          end in
        Ok (inr (mkFmt entries (f_str st ++ buf)%string offset symbol))
  end.

Fixpoint format_loop (st : fmt_state) (cursor : nat) (frames : list Z)
  : result fmt_state :=
  match frames with
  | [] => Ok st
  | frame :: rest =>
      r <- format_frame st cursor frame ;;
      match r with
      | inl st' => Ok st'
      | inr st' => format_loop st' (S cursor) rest
      end
  end.

(** The table afterwards and the string returned. *)
Definition FormatBacktrace (entries : list MapEntry) (frames : list Z)
  : result (list MapEntry * string) :=
  st <- format_loop (mkFmt entries EmptyString 0 None) O frames ;;
  Ok (f_entries st, f_str st).

End Code.

(** ** Concrete environments

    The pieces the examples below are built from. *)

(** Modelled from the spec: the ordering [compare_entries] of [entries_]
    ([memory_map.h] is not among the sources).  Entries are ordered by start
    address and no two of them overlap: one entry comes before another when it
    ends at or before the other's start, so that entries whose ranges overlap
    are equivalent and the second of them is rejected. *)
Definition compare_entries_spec (a b : MapEntry) : bool :=
  end_ a <=? start b.

(** Modelled from the spec: the key [MapEntry(pc)] of a lookup
    ([memory_map.h] is not among the sources).  The lookup returns the entry
    whose range [start, end) contains the address; under the ordering above
    that is the entry equivalent to the one-byte range at [pc]. *)
Definition pc_entry_spec (pc : Z) : MapEntry :=
  new_MapEntry pc (pc + 1) 0 EmptyString 0.

(** Modelled from the spec: [MapEntry::NeedIgnore] ([memory_map.h] is not
    among the sources), a predicate over the module path of the entry; here
    the entry maps the library [lib]. *)
Definition NeedIgnore_spec (lib : string) (e : MapEntry) : bool :=
  String.eqb (name e) lib.

(** *** A scanner for the maps format

    What [sscanf] does with the format
    ["%lx-%lx %4s %lx %*x:%*x %*d %n"] on the lines the kernel writes:
    numbers without sign or prefix, white space skipped before every
    conversion.  Locals that are not reached read as zero. *)

Definition is_space (c : ascii) : bool :=
  let n := Ascii.nat_of_ascii c in
  Nat.eqb n 32 || (Nat.leb 9 n && Nat.leb n 13).

Definition digit_val (base : Z) (c : ascii) : option Z :=
  let n := Z.of_nat (Ascii.nat_of_ascii c) in
  let d :=
    if (48 <=? n) && (n <=? 57) then n - 48
    else if (97 <=? n) && (n <=? 102) then n - 87
    else if (65 <=? n) && (n <=? 70) then n - 55
    else 16 in
  if d <? base then Some d else None.

(** A cursor: the text not yet consumed and the number of characters that
    were. *)
Definition cursor : Type := (string * Z)%type.

Fixpoint skip_space (s : string) (pos : Z) : cursor :=
  match s with
  | String c s' => if is_space c then skip_space s' (pos + 1) else (s, pos)
  | EmptyString => (s, pos)
  end.

Fixpoint scan_digits (base max : Z) (s : string) (pos acc : Z) : Z * cursor :=
  match s with
  | String c s' =>
      match digit_val base c with
      | Some d => scan_digits base max s' (pos + 1) (Z.min max (acc * base + d))
      | None => (acc, (s, pos))
      end
  | EmptyString => (acc, (s, pos))
  end.

(** A number in base [base]: at least one digit, after any white space. *)
Definition scan_number (base max : Z) (c : cursor) : option (Z * cursor) :=
  let (s, pos) := skip_space c.1 c.2 in
  match s with
  | String ch _ =>
      match digit_val base ch with
      | Some _ => Some (scan_digits base max s pos 0)
      | None => None
      end
  | EmptyString => None
  end.

Definition scan_char (ch : ascii) (c : cursor) : option cursor :=
  match c.1 with
  | String ch' s' => if Ascii.eqb ch ch' then Some (s', c.2 + 1) else None
  | EmptyString => None
  end.

Fixpoint scan_word (n : nat) (s : string) (pos : Z) : list ascii * cursor :=
  match n, s with
  | S n', String c s' =>
      if is_space c then ([], (s, pos))
      else let (w, k) := scan_word n' s' (pos + 1) in (c :: w, k)
  | _, _ => ([], (s, pos))
  end.

(** [%4s]: up to four characters that are not white space, and the
    terminating zero. *)
Definition scan_4s (c : cursor) : option (list ascii * cursor) :=
  let (s, pos) := skip_space c.1 c.2 in
  match scan_word 4 s pos with
  | ([], _) => None
  | (w, k) => Some (w ++ [Ascii.zero], k)
  end.

(** [" %*x:%*x %*d %n"]: the position of the path, when all of it matches. *)
Definition scan_tail (max : Z) (c : cursor) : option Z :=
  '(_, c) ← scan_number 16 max c;
  c ← scan_char ":"%char c;
  '(_, c) ← scan_number 16 max c;
  '(_, c) ← scan_number 10 max c;
  Some (skip_space c.1 c.2).2.

Definition scan_maps_line (lp64 : bool) (line : string) : scan_result :=
  let max := 2 ^ (if lp64 then 64 else 32) - 1 in
  match scan_number 16 max (line, 0) with
  | None => mkScan (if String.eqb line EmptyString then -1 else 0) 0 0 [] 0 0
  | Some (s_start, c) =>
      match c ← scan_char "-"%char c; scan_number 16 max c with
      | None => mkScan 1 s_start 0 [] 0 0
      | Some (s_end, c) =>
          match scan_4s c with
          | None => mkScan 2 s_start s_end [] 0 0
          | Some (perms, c) =>
              match scan_number 16 max c with
              | None => mkScan 3 s_start s_end perms 0 0
              | Some (s_offset, c) =>
                  mkScan 4 s_start s_end perms s_offset
                         (default 0 (scan_tail max c))
              end
          end
      end
  end.

(** *** Memory images *)

(** The bytes [bs] mapped at [base], nothing else. *)
Definition mem_of_bytes (base : Z) (bs : list Z) : Z -> option Z :=
  fun a =>
    if (base <=? a) && (a <? base + Z.of_nat (length bs))
    then bs !! Z.to_nat (a - base) else None.

(** [m1] where it is mapped, [m2] elsewhere. *)
Definition mem_over (m1 m2 : Z -> option Z) : Z -> option Z :=
  fun a => match m1 a with Some b => Some b | None => m2 a end.

(** The range [lo, hi) mapped and filled with zeros. *)
Definition mem_zero (lo hi : Z) : Z -> option Z :=
  fun a => if (lo <=? a) && (a <? hi) then Some 0 else None.

(** The [n] bytes of [v], lowest first. *)
Fixpoint le_bytes (n : nat) (v : Z) : list Z :=
  match n with
  | O => []
  | S n' => v mod 256 :: le_bytes n' (v / 256)
  end.

(** An [Elf64_Phdr]. *)
Definition elf64_phdr (p_type p_flags p_offset p_vaddr : Z) : list Z :=
  le_bytes 4 p_type ++ le_bytes 4 p_flags ++ le_bytes 8 p_offset
  ++ le_bytes 8 p_vaddr ++ replicate 32 0.

(** An [Elf64_Ehdr] with these [e_phoff] and [e_phnum]. *)
Definition elf64_ehdr (e_phoff e_phnum : Z) : list Z :=
  ELFMAG ++ replicate 28 0 ++ le_bytes 8 e_phoff ++ replicate 16 0
  ++ le_bytes 2 e_phnum ++ replicate 6 0.

(** A 64-bit ELF image: the header, with the program headers [phdrs] right
    after it. *)
Definition elf64_image (phdrs : list (list Z)) : list Z :=
  elf64_ehdr 64 (Z.of_nat (length phdrs)) ++ concat phdrs.

(** *** A module split over two mappings

    The layout of the design document: a read-only mapping at file offset 0
    that holds the ELF header, its executable [PT_LOAD] segment at
    [p_vaddr = p_offset = 0x1000], and right after it the read-execute
    mapping of the same file at offset [0x1000]. *)

Definition libfoo_maps : string :=
  ("7000000000-7000001000 r--p 00000000 fd:00 1234   /system/lib64/libfoo.so" ++ nl
   ++ "7000001000-7000003000 r-xp 00001000 fd:00 1234   /system/lib64/libfoo.so" ++ nl)%string.

Definition libfoo_mem : Z -> option Z :=
  mem_over (mem_of_bytes 0x7000000000 (elf64_image [elf64_phdr PT_LOAD 5 0x1000 0x1000]))
           (mem_zero 0x7000000000 0x7000003000).

Definition no_symbols : Z -> option Dl_info := fun _ => None.
Definition no_demangle : string -> option string := fun _ => None.

Definition koom_lib : string := "/data/app/lib/arm64/libkoom-native.so".

Definition env_libfoo : Env :=
  Build_Env true libfoo_mem compare_entries_spec pc_entry_spec
            (NeedIgnore_spec koom_lib) (scan_maps_line true)
            (Some libfoo_maps) no_symbols no_demangle.

(** *** A library inside an archive

    The same split, for a library stored in an archive at file offset
    [0x2000] and linked at [0x4000]: the header is in a read-only mapping at
    offset [0x2000], the code in a read-execute mapping at offset [0x3000],
    and the executable segment has [p_vaddr = 0x5000], [p_offset = 0x1000].
    A mapping without any permission follows. *)

Definition apk_maps : string :=
  ("7100000000-7100001000 r--p 00002000 fd:00 77   /data/app/base.apk" ++ nl
   ++ "7100001000-7100003000 r-xp 00003000 fd:00 77   /data/app/base.apk" ++ nl
   ++ "7100003000-7100004000 ---p 00000000 00:00 0 " ++ nl)%string.

Definition apk_mem : Z -> option Z :=
  mem_over (mem_of_bytes 0x7100000000 (elf64_image [elf64_phdr PT_LOAD 5 0x1000 0x5000]))
           (mem_zero 0x7100000000 0x7100003000).

Definition env_apk : Env :=
  Build_Env true apk_mem compare_entries_spec pc_entry_spec
            (NeedIgnore_spec koom_lib) (scan_maps_line true)
            (Some apk_maps) no_symbols no_demangle.

Definition apk_header_entry : MapEntry :=
  mkMapEntry 0x7100000000 0x7100001000 0x2000 0 0 "/data/app/base.apk" 1 false false.

Definition apk_code_entry : MapEntry :=
  mkMapEntry 0x7100001000 0x7100003000 0x3000 0 0 "/data/app/base.apk" 5 false false.

Definition apk_guard_entry : MapEntry :=
  mkMapEntry 0x7100003000 0x7100004000 0 0 0 "" 0 true false.

(** The table [ReadMaps] builds from [apk_maps]. *)
Definition apk_entries : list MapEntry :=
  [apk_header_entry; apk_code_entry; apk_guard_entry].

(** *** A module in one mapping

    Header and code in the same read-execute mapping; the executable segment
    has [p_vaddr = 0x5000] and [p_offset = 0x1000], a load bias of
    [0x4000]. *)

Definition libbar_maps : string :=
  ("7200000000-7200002000 r-xp 00000000 fd:00 99   /system/lib64/libbar.so" ++ nl)%string.

Definition libbar_mem : Z -> option Z :=
  mem_over (mem_of_bytes 0x7200000000
              (elf64_image [elf64_phdr 6 4 64 64; elf64_phdr PT_LOAD 5 0x1000 0x5000]))
           (mem_zero 0x7200000000 0x7200002000).

Definition env_libbar : Env :=
  Build_Env true libbar_mem compare_entries_spec pc_entry_spec
            (NeedIgnore_spec koom_lib) (scan_maps_line true)
            (Some libbar_maps) no_symbols no_demangle.

Definition libbar_entry : MapEntry :=
  mkMapEntry 0x7200000000 0x7200002000 0 0 0 "/system/lib64/libbar.so" 5 false false.

(** *** An ELF image without executable segment

    The magic, and one [PT_LOAD] header that is readable but not executable. *)

Definition libdata_mem : Z -> option Z :=
  mem_over (mem_of_bytes 0x7300000000 (elf64_image [elf64_phdr PT_LOAD 4 0 0]))
           (mem_zero 0x7300000000 0x7300001000).

Definition env_libdata : Env :=
  Build_Env true libdata_mem compare_entries_spec pc_entry_spec
            (NeedIgnore_spec koom_lib) (scan_maps_line true)
            None no_symbols no_demangle.

Definition libdata_entry : MapEntry :=
  mkMapEntry 0x7300000000 0x7300001000 0 0 0 "/system/lib64/libdata.so" 1 false false.

(** *** An ELF header that points outside its mapping

    One program header, at the offset that puts it in the last four bytes of
    the address space. *)

Definition top_word : Z := 2 ^ 64 - 4.

Definition libevil_mem : Z -> option Z :=
  mem_over (mem_of_bytes 0x7300000000 (elf64_ehdr (top_word - 0x7300000000) 1))
           (mem_zero 0x7300000000 0x7300001000).

Definition env_libevil : Env :=
  Build_Env true libevil_mem compare_entries_spec pc_entry_spec
            (NeedIgnore_spec koom_lib) (scan_maps_line true)
            None no_symbols no_demangle.

(** The memory of [env_libdata] with the last four bytes of the address space
    mapped as well. *)
Definition env_top_mapped : Env :=
  Build_Env true (mem_over libdata_mem (mem_of_bytes top_word [1; 2; 3; 4]))
            compare_entries_spec pc_entry_spec
            (NeedIgnore_spec koom_lib) (scan_maps_line true)
            None no_symbols no_demangle.

(** *** A mapping of four bytes that holds the ELF magic *)

Definition magic_entry : MapEntry :=
  mkMapEntry 0x7400000000 0x7400000004 0 0 0 "/data/magic" 1 false false.

Definition env_magic : Env :=
  Build_Env true (mem_of_bytes 0x7400000000 ELFMAG)
            compare_entries_spec pc_entry_spec
            (NeedIgnore_spec koom_lib) (scan_maps_line true)
            None no_symbols no_demangle.

(** *** An entry of a library that is no longer mapped *)

Definition stale_entry : MapEntry :=
  mkMapEntry 0x6000000000 0x6000001000 0 0 0 "/data/old.so" 5 true true.

(** The table [ReadMaps] builds from [libfoo_maps]. *)
Definition libfoo_entries : list MapEntry :=
  [ mkMapEntry 0x7000000000 0x7000001000 0 0 0 "/system/lib64/libfoo.so" 1 false false;
    mkMapEntry 0x7000001000 0x7000003000 0x1000 0 0 "/system/lib64/libfoo.so" 5 false false ].

(** *** Symbols

    [libbar] with one exported function, [foo()], at [0x7200000200]; the
    lookup knows the addresses up to [0x7200000240] and no other. *)

Definition libbar_dladdr (a : Z) : option Dl_info :=
  if (0x7200000200 <=? a) && (a <? 0x7200000240)
  then Some (mkDl_info (Some "/system/lib64/libbar.so"%string)
                       (Some "_Z3foov"%string) 0x7200000200)
  else None.

Definition libbar_demangle (sym : string) : option string :=
  if String.eqb sym "_Z3foov" then Some "foo()"%string else None.

Definition env_symbols : Env :=
  Build_Env true libbar_mem compare_entries_spec pc_entry_spec
            (NeedIgnore_spec koom_lib) (scan_maps_line true)
            (Some libbar_maps) libbar_dladdr libbar_demangle.

(** The second line of [apk_maps]. *)
Definition apk_code_line : string :=
  ("7100001000-7100003000 r-xp 00003000 fd:00 77   /data/app/base.apk" ++ nl)%string.

(** *** A mapping description with a line that is no mapping *)

Definition bad_maps : string :=
  ("7000000000-7000001000 r--p 00000000 fd:00 1234   /system/lib64/libfoo.so" ++ nl
   ++ "not a mapping" ++ nl
   ++ "7000001000-7000003000 r-xp 00001000 fd:00 1234   /system/lib64/libfoo.so" ++ nl)%string.

Definition env_bad_maps : Env :=
  Build_Env true libfoo_mem compare_entries_spec pc_entry_spec
            (NeedIgnore_spec koom_lib) (scan_maps_line true)
            (Some bad_maps) no_symbols no_demangle.

(** *** A file that is no ELF image, in two mappings *)

Definition blob_header_entry : MapEntry :=
  mkMapEntry 0x7500000000 0x7500001000 0 0 0 "/data/blob.bin" 1 false false.

Definition blob_code_entry : MapEntry :=
  mkMapEntry 0x7500001000 0x7500002000 0x1000 0 0 "/data/blob.bin" 5 false false.

Definition env_blob : Env :=
  Build_Env true (mem_zero 0x7500000000 0x7500002000)
            compare_entries_spec pc_entry_spec
            (NeedIgnore_spec koom_lib) (scan_maps_line true)
            None no_symbols no_demangle.

(** *** The library of the monitor itself, mapped next to [libbar] *)

Definition koom_maps : string :=
  ("7200000000-7200002000 r-xp 00000000 fd:00 99   /system/lib64/libbar.so" ++ nl
   ++ "7600000000-7600001000 r-xp 00000000 fd:00 5   /data/app/lib/arm64/libkoom-native.so" ++ nl)%string.

Definition koom_entry : MapEntry :=
  mkMapEntry 0x7600000000 0x7600001000 0 0 0 koom_lib 5 false false.

Definition env_koom : Env :=
  Build_Env true (mem_over libbar_mem (mem_zero 0x7600000000 0x7600001000))
            compare_entries_spec pc_entry_spec
            (NeedIgnore_spec koom_lib) (scan_maps_line true)
            (Some koom_maps) no_symbols no_demangle.

(** ** Vocabulary of the statements *)

Section Vocabulary.
Context `{env : Env}.

(** The fields a mapping line gives an entry. *)
Definition same_mapping (e e' : MapEntry) : Prop :=
  start e' = start e /\ end_ e' = end_ e /\ offset e' = offset e
  /\ name e' = name e /\ flags e' = flags e.

(** A table as the design document wants it: ranges that are not empty, in
    ascending order, none overlapping another. *)
Definition ordered_table (l : list MapEntry) : Prop :=
  (forall i e, l !! i = Some e -> start e < end_ e)
  /\ forall i j a b, l !! i = Some a -> l !! j = Some b -> (i < j)%nat ->
       end_ a <= start b.

(** Every byte of the range of the entry is mapped. *)
Definition mapped (e : MapEntry) : Prop :=
  forall a, start e <= a < end_ e -> is_Some (mem a).

(** The ordering looks at nothing but the fields a mapping line gives. *)
Definition compare_respects : Prop :=
  forall a a' b, same_mapping a a' ->
    compare_entries a' b = compare_entries a b
    /\ compare_entries b a' = compare_entries b a.

(** The loop of [FormatBacktrace] went through the frames [frames], from the
    state [st] and the index [cursor], without leaving early. *)
Inductive formatted : fmt_state -> nat -> list Z -> fmt_state -> Prop :=
  | formatted_nil st cursor : formatted st cursor [] st
  | formatted_cons st cursor frame st1 frames st2 :
      format_frame st cursor frame = Ok (inr st1) ->
      formatted st1 (S cursor) frames st2 ->
      formatted st cursor (frame :: frames) st2.

(** The ranges of two entries have an address in common. *)
Definition overlaps (a b : MapEntry) : Prop :=
  start a < end_ b /\ start b < end_ a.

(** The text a list of lines makes up. *)
Definition join_lines (ls : list string) : string :=
  foldr String.append EmptyString ls.

(** Entries that agree on range and flags read the same. *)
Definition reads_as (e e2 : MapEntry) : Prop :=
  forall a size, GetVal e2 a size = GetVal e a size.

(** *** The program-header scan, in the words of the design document *)

(** The field of [size] bytes at offset [off] of the structure at [a], read
    through [GetVal]. *)
Definition field (e : MapEntry) (a off size : Z) : result (option Z) :=
  GetVal e (wrap (a + off)) size.

(** Address of the program header of index [j] in the table at [a]. *)
Definition phdr_addr (a : Z) (j : nat) : Z := a + Z.of_nat j * sizeof_Phdr.

(** "Type loadable segment and the executable flag set". *)
Definition is_exec_load (p_type p_flags : Z) : bool :=
  (p_type =? PT_LOAD) && negb (Z.land p_flags PF_X =? 0).

(** The header at [a] can be read and is not an executable load segment. *)
Definition other_header_at (e : MapEntry) (a : Z) : Prop :=
  exists p_type p_flags p_offset,
    field e a offsetof_p_type sizeof_Word = Ok (Some p_type)
    /\ field e a offsetof_p_flags sizeof_Word = Ok (Some p_flags)
    /\ field e a offsetof_p_offset sizeof_Off = Ok (Some p_offset)
    /\ is_exec_load p_type p_flags = false.

(** The header at [a] is an executable load segment with these [p_vaddr] and
    [p_offset]. *)
Definition exec_load_at (e : MapEntry) (a p_vaddr p_offset : Z) : Prop :=
  exists p_type p_flags,
    field e a offsetof_p_type sizeof_Word = Ok (Some p_type)
    /\ field e a offsetof_p_flags sizeof_Word = Ok (Some p_flags)
    /\ field e a offsetof_p_offset sizeof_Off = Ok (Some p_offset)
    /\ is_exec_load p_type p_flags = true
    /\ field e a offsetof_p_vaddr sizeof_Addr = Ok (Some p_vaddr).

(** A field the scan requires of the header at [a] is unavailable. *)
Definition unavailable_at (e : MapEntry) (a : Z) : Prop :=
  field e a offsetof_p_type sizeof_Word = Ok None
  \/ (exists p_type,
        field e a offsetof_p_type sizeof_Word = Ok (Some p_type)
        /\ field e a offsetof_p_flags sizeof_Word = Ok None)
  \/ (exists p_type p_flags,
        field e a offsetof_p_type sizeof_Word = Ok (Some p_type)
        /\ field e a offsetof_p_flags sizeof_Word = Ok (Some p_flags)
        /\ field e a offsetof_p_offset sizeof_Off = Ok None)
  \/ (exists p_type p_flags p_offset,
        field e a offsetof_p_type sizeof_Word = Ok (Some p_type)
        /\ field e a offsetof_p_flags sizeof_Word = Ok (Some p_flags)
        /\ field e a offsetof_p_offset sizeof_Off = Ok (Some p_offset)
        /\ is_exec_load p_type p_flags = true
        /\ field e a offsetof_p_vaddr sizeof_Addr = Ok None).

(** The first executable load segment among the [n] program headers at [a]:
    [Some (p_vaddr, p_offset)] when there is one, [None] when there is none
    or a required field is unavailable before one is found. *)
Inductive first_exec_load (e : MapEntry) (a : Z) (n : nat)
  : option (Z * Z) -> Prop :=
  | fel_found (k : nat) (p_vaddr p_offset : Z) :
      (k < n)%nat ->
      (forall j, (j < k)%nat -> other_header_at e (phdr_addr a j)) ->
      exec_load_at e (phdr_addr a k) p_vaddr p_offset ->
      first_exec_load e a n (Some (p_vaddr, p_offset))
  | fel_none :
      (forall j, (j < n)%nat -> other_header_at e (phdr_addr a j)) ->
      first_exec_load e a n None
  | fel_unavailable (k : nat) :
      (k < n)%nat ->
      (forall j, (j < k)%nat -> other_header_at e (phdr_addr a j)) ->
      unavailable_at e (phdr_addr a k) ->
      first_exec_load e a n None.

(** The scan of the image at [entry.start]: the count and the offset of the
    program headers come from the ELF header, each through [GetVal]. *)
Inductive scan_spec (e : MapEntry) : option (Z * Z) -> Prop :=
  | scan_no_phnum :
      field e (start e) offsetof_e_phnum sizeof_Half = Ok None ->
      scan_spec e None
  | scan_no_phoff (e_phnum : Z) :
      field e (start e) offsetof_e_phnum sizeof_Half = Ok (Some e_phnum) ->
      field e (start e) offsetof_e_phoff sizeof_Off = Ok None ->
      scan_spec e None
  | scan_headers (e_phnum e_phoff : Z) (o : option (Z * Z)) :
      field e (start e) offsetof_e_phnum sizeof_Half = Ok (Some e_phnum) ->
      field e (start e) offsetof_e_phoff sizeof_Off = Ok (Some e_phoff) ->
      first_exec_load e (start e + e_phoff) (Z.to_nat e_phnum) o ->
      scan_spec e o.

(** "load_bias = p_vaddr - p_offset", and 0 without such a segment. *)
Definition bias_of (o : option (Z * Z)) : Z :=
  match o with
  | Some (p_vaddr, p_offset) => wrap (p_vaddr - p_offset)
  | None => 0
  end.

End Vocabulary.

(** * Properties *)

Section Properties.
Context `{env : Env}.

(** ** Words *)

Lemma ptr_mod_pos : 0 < ptr_mod.
Proof. unfold ptr_mod, ptr_bits. destruct lp64; reflexivity. Qed.

Lemma wrap_range z : 0 <= wrap z < ptr_mod.
Proof. apply Z.mod_pos_bound, ptr_mod_pos. Qed.

Lemma wrap_small z : 0 <= z < ptr_mod -> wrap z = z.
Proof. apply Z.mod_small. Qed.

(** ** The monad *)

Lemma bind_Ok {A B} (m : result A) (k : A -> result B) b :
  bind m k = Ok b -> exists a, m = Ok a /\ k a = Ok b.
Proof. destruct m as [a|f]; simpl; [eauto | discriminate]. Qed.

(** ** Inspection touches the bias and the two flags only *)

Lemma same_mapping_refl e : same_mapping e e.
Proof. by repeat split. Qed.

Lemma phdr_loop_shape n e a e' :
  phdr_loop n e a = Ok e' -> e' = e \/ exists v, e' = set_load_bias v e.
Proof.
  revert a. induction n as [|n IH]; intros a; simpl.
  - intros [= <-]. by left.
  - intros H.
    apply bind_Ok in H as ([p_type|] & _ & H); [|left; congruence].
    apply bind_Ok in H as ([p_flags|] & _ & H); [|left; congruence].
    apply bind_Ok in H as ([p_offset|] & _ & H); [|left; congruence].
    destruct (_ && _).
    + apply bind_Ok in H as ([p_vaddr|] & _ & H); [|left; congruence].
      right. injection H as <-. by eexists.
    + eauto.
Qed.

Lemma ReadLoadbias_shape e e' :
  ReadLoadbias e = Ok e' -> exists v, e' = set_load_bias v e.
Proof.
  unfold ReadLoadbias. intros H.
  apply bind_Ok in H as ([e_phnum|] & _ & H); [|injection H as <-; by eexists].
  apply bind_Ok in H as ([e_phoff|] & _ & H); [|injection H as <-; by eexists].
  apply phdr_loop_shape in H as [->|[v ->]]; eexists; reflexivity.
Qed.

(** What [Init] leaves behind for an entry it had not seen. *)
Lemma Init_shape e e' :
  init e = false -> Init e = Ok e' ->
  (ValidElf e = Ok false /\ e' = set_init true e)
  \/ (ValidElf e = Ok true
      /\ exists v, e' = set_load_bias v (set_valid true (set_init true e))).
Proof.
  unfold Init. intros -> H. cbv zeta in H.
  apply bind_Ok in H as (ok & Hv & H).
  change (ValidElf (set_init true e)) with (ValidElf e) in Hv.
  destruct ok.
  - right. split; [done|]. by apply ReadLoadbias_shape in H.
  - left. split; congruence.
Qed.

Lemma Init_same_mapping e e' :
  Init e = Ok e' ->
  same_mapping e e' /\ elf_start_offset e' = elf_start_offset e.
Proof.
  destruct (init e) eqn:Hi.
  - unfold Init. rewrite Hi. intros [= <-]. split; [apply same_mapping_refl | done].
  - intros H. apply Init_shape in H as [[_ ->]|[_ [v ->]]]; [|done..].
    all: by repeat split.
Qed.

Lemma Init_inspected e e' : Init e = Ok e' -> init e' = true.
Proof.
  destruct (init e) eqn:Hi.
  - unfold Init. rewrite Hi. congruence.
  - intros H. apply Init_shape in H as [[_ ->]|[_ [v ->]]]; done.
Qed.

(** [Init] is idempotent. *)
Lemma Init_again e e' : Init e = Ok e' -> Init e' = Ok e'.
Proof. intros H. apply Init_inspected in H. unfold Init. by rewrite H. Qed.

(** ** The lookup *)

Lemma set_find_lookup key l i e :
  set_find key l = Some (i, e) -> l !! i = Some e.
Proof.
  unfold set_find. destruct (l !! lower_bound key l) as [e0|] eqn:E; [|done].
  destruct (compare_entries key e0); [done|]. by intros [= <- <-].
Qed.

Lemma find_entry_lookup entries pc entries1 i e :
  find_entry entries pc = Ok (entries1, Some (i, e)) -> entries1 !! i = Some e.
Proof.
  unfold find_entry. intros H. apply bind_Ok in H as (l & _ & [= -> H]).
  by apply set_find_lookup in H.
Qed.

Lemma lower_bound_at key : forall l i e,
  l !! i = Some e ->
  (forall j e', (j < i)%nat -> l !! j = Some e' -> compare_entries e' key = true) ->
  compare_entries e key = false ->
  lower_bound key l = i.
Proof.
  induction l as [|x l IH]; intros i e Hi Hbefore Hat; [done|].
  destruct i as [|i]; simpl in *.
  - injection Hi as ->. by rewrite Hat.
  - rewrite (Hbefore O x) by (done || lia). f_equal.
    apply (IH i e Hi); [|done].
    intros j e' Hj He'. apply (Hbefore (S j) e'); [lia | done].
Qed.

Lemma lower_bound_before key : forall l j e,
  (j < lower_bound key l)%nat -> l !! j = Some e ->
  compare_entries e key = true.
Proof.
  induction l as [|x l IH]; intros j e Hj He; simpl in *; [lia|].
  destruct (compare_entries x key) eqn:E; [|lia].
  destruct j as [|j]; simpl in He; [congruence|].
  apply (IH j); [lia | done].
Qed.

Lemma lower_bound_stop key : forall l e,
  l !! lower_bound key l = Some e -> compare_entries e key = false.
Proof.
  induction l as [|x l IH]; intros e He; simpl in *; [done|].
  destruct (compare_entries x key) eqn:E; simpl in He; [by apply IH | congruence].
Qed.

(** What a hit of the lookup tells. *)
Lemma set_find_inv key l i e :
  set_find key l = Some (i, e) ->
  l !! i = Some e
  /\ compare_entries e key = false /\ compare_entries key e = false
  /\ forall j e', (j < i)%nat -> l !! j = Some e' ->
       compare_entries e' key = true.
Proof.
  unfold set_find.
  destruct (l !! lower_bound key l) as [e0|] eqn:E; [|done].
  destruct (compare_entries key e0) eqn:Ec; [done|].
  intros [= <- <-]. split; [done|]. split; [by eapply lower_bound_stop|].
  split; [done|]. intros j e'. apply lower_bound_before.
Qed.

(** Under the ordering and the key of the design document, the lookup in an
    ordered table returns the entry whose range holds the address, the start
    included. *)
Lemma set_find_containing l i e pc :
  compare_entries = compare_entries_spec -> pc_entry = pc_entry_spec ->
  ordered_table l ->
  l !! i = Some e -> start e <= pc < end_ e ->
  set_find (pc_entry pc) l = Some (i, e).
Proof.
  intros Hc Hk [Hne Hord] Hi Hpc. unfold set_find.
  rewrite (lower_bound_at (pc_entry pc) l i e Hi).
  - rewrite Hi, Hc, Hk. unfold compare_entries_spec. simpl.
    destruct (pc + 1 <=? start e) eqn:E; [lia | done].
  - intros j e' Hj He'. rewrite Hc, Hk. unfold compare_entries_spec. simpl.
    apply Z.leb_le. pose proof (Hord j i e' e He' Hi Hj). lia.
  - rewrite Hc, Hk. unfold compare_entries_spec. simpl. lia.
Qed.

(** ** Resolution *)

(** With a null [rel_pc] the call ends after the inspection of the entry
    found. *)
Lemma CalculateRelPc_null entries pc entries1 i e e' :
  find_entry entries pc = Ok (entries1, Some (i, e)) ->
  Init e = Ok e' ->
  CalculateRelPc entries pc None = Ok (<[i := e']> entries1, Some i, None).
Proof. intros Hf Hi. unfold CalculateRelPc. rewrite Hf. simpl. by rewrite Hi. Qed.

(** The store through [rel_pc] for an entry that is a valid ELF image. *)
Lemma store_rel_pc_valid entries i e pc :
  valid e = true ->
  store_rel_pc entries i e pc = Ok (entries, wrap (pc - start e + load_bias e)).
Proof. intros Hv. unfold store_rel_pc. by rewrite Hv. Qed.

(** The store through [rel_pc] for an entry that is not a valid ELF image and
    whose predecessor is the read-only mapping of the same file. *)
Lemma store_rel_pc_split entries j e p p' pc :
  valid e = false ->
  entries !! j = Some p ->
  flags p = PROT_READ -> offset p < offset e -> name p = name e ->
  Init p = Ok p' -> valid p' = true ->
  store_rel_pc entries (S j) e pc
  = Ok (<[S j := set_elf_start_offset (offset p) e]> (<[j := p']> entries),
        wrap (pc - start e + offset e + load_bias p')).
Proof.
  intros Hv Hj Hfl Hoff Hname Hi Hv'.
  destruct (Init_same_mapping _ _ Hi) as [(_ & _ & Ho & _) _].
  unfold store_rel_pc. rewrite Hv. simpl.
  rewrite Nat.sub_0_r, Hj, Hfl, Z.eqb_refl, Hname, String.eqb_refl.
  apply Z.ltb_lt in Hoff. rewrite Hoff. simpl.
  by rewrite Hi; simpl; rewrite Hv', Ho.
Qed.

(** C9: a pc that resolves to an entry whose inspection succeeded (the entry
    is valid, its load bias is [B]) gets the relative pc
    [pc - entry.start + entry.load_bias]; for [pc = entry.start + k] that is
    [k + B].  The arithmetic is the one of [uintptr_t]. *)
Theorem CalculateRelPc_valid_entry entries pc r0 entries1 i e e' :
  find_entry entries pc = Ok (entries1, Some (i, e)) ->
  Init e = Ok e' ->
  valid e' = true ->
  CalculateRelPc entries pc (Some r0)
  = Ok (<[i := e']> entries1, Some i,
        Some (wrap (pc - start e + load_bias e')))
  /\ forall k B, pc = start e + k -> load_bias e' = B ->
       CalculateRelPc entries pc (Some r0)
       = Ok (<[i := e']> entries1, Some i, Some (wrap (k + B))).
Proof.
  intros Hf Hi Hv.
  destruct (Init_same_mapping _ _ Hi) as [(Hs & _) _].
  assert (CalculateRelPc entries pc (Some r0)
          = Ok (<[i := e']> entries1, Some i,
                Some (wrap (pc - start e + load_bias e')))) as Heq.
  { unfold CalculateRelPc. rewrite Hf. simpl. rewrite Hi. simpl.
    rewrite store_rel_pc_valid by done. simpl. by rewrite Hs. }
  split; [done|].
  intros k B -> <-. rewrite Heq. do 4 f_equal. lia.
Qed.

(** C3: a pc that resolves to an entry that is not a valid ELF image, and
    whose immediate predecessor has exactly the read flag, a smaller file
    offset and the same file name and inspects as a valid ELF image, gets the
    relative pc [pc - entry.start + entry.offset + preceding.load_bias], and
    the entry's [elf_start_offset] becomes the predecessor's offset. *)
Theorem CalculateRelPc_split_mapping entries pc r0 entries1 j e e' p p' :
  find_entry entries pc = Ok (entries1, Some (S j, e)) ->
  Init e = Ok e' ->
  valid e' = false ->
  entries1 !! j = Some p ->
  flags p = PROT_READ -> offset p < offset e -> name p = name e ->
  Init p = Ok p' ->
  valid p' = true ->
  let entries' :=
    <[S j := set_elf_start_offset (offset p) e']>
      (<[j := p']> (<[S j := e']> entries1)) in
  CalculateRelPc entries pc (Some r0)
  = Ok (entries', Some (S j),
        Some (wrap (pc - start e + offset e + load_bias p')))
  /\ (exists e'', entries' !! S j = Some e''
                  /\ elf_start_offset e'' = offset p).
Proof.
  intros Hf Hi Hv Hj Hfl Hoff Hname Hi' Hv' entries'.
  destruct (Init_same_mapping _ _ Hi) as [(Hs & _ & Ho & Hn & _) _].
  pose proof (find_entry_lookup _ _ _ _ _ Hf) as Hl.
  split.
  - unfold CalculateRelPc. rewrite Hf. simpl. rewrite Hi. simpl.
    rewrite (store_rel_pc_split _ j e' p p'); try done.
    + simpl. by rewrite Hs, Ho.
    + rewrite list_lookup_insert_ne by lia. done.
    + lia.
    + congruence.
  - exists (set_elf_start_offset (offset p) e'). split; [|done].
    apply list_lookup_insert_eq. rewrite !length_insert.
    by apply lookup_lt_Some in Hl.
Qed.

(** C10: with a null [rel_pc] the call looks the pc up and inspects the entry
    found, and does nothing else: the entry keeps its [elf_start_offset] and
    every other entry of the table, the predecessor included, is as the
    lookup left it. *)
Theorem CalculateRelPc_null_rel_pc entries pc entries1 i e e' :
  find_entry entries pc = Ok (entries1, Some (i, e)) ->
  Init e = Ok e' ->
  exists entries',
    CalculateRelPc entries pc None = Ok (entries', Some i, None)
    /\ entries' !! i = Some e'
    /\ elf_start_offset e' = elf_start_offset e
    /\ forall j, j <> i -> entries' !! j = entries1 !! j.
Proof.
  intros Hf Hi. exists (<[i := e']> entries1).
  pose proof (find_entry_lookup _ _ _ _ _ Hf) as Hl.
  split; [by apply CalculateRelPc_null with e|].
  split; [apply list_lookup_insert_eq; by apply lookup_lt_Some in Hl|].
  split; [by apply Init_same_mapping|].
  intros j Hj. by apply list_lookup_insert_ne.
Qed.

(** ** The program-header scan *)

Lemma field_wrap e a b off size :
  wrap b = wrap a -> field e b off size = field e a off size.
Proof.
  intros H. unfold field, wrap in *. f_equal.
  by rewrite <- (Zplus_mod_idemp_l b), H, Zplus_mod_idemp_l.
Qed.

Lemma phdr_loop_other e e2 n a b :
  reads_as e e2 -> wrap b = wrap a -> other_header_at e a ->
  phdr_loop (S n) e2 b = phdr_loop n e2 (wrap (b + sizeof_Phdr)).
Proof.
  intros Hr Hw (ty & fl & po & Hty & Hfl & Hpo & Hx).
  rewrite <- (field_wrap e a b) in Hty, Hfl, Hpo by done.
  unfold field in *. simpl. rewrite !Hr, Hty. simpl.
  rewrite Hfl. simpl. rewrite Hpo. simpl.
  unfold is_exec_load in Hx. by rewrite Hx.
Qed.

Lemma phdr_loop_exec_load e e2 n a b p_vaddr p_offset :
  reads_as e e2 -> wrap b = wrap a -> exec_load_at e a p_vaddr p_offset ->
  phdr_loop (S n) e2 b = Ok (set_load_bias (wrap (p_vaddr - p_offset)) e2).
Proof.
  intros Hr Hw (ty & fl & Hty & Hfl & Hpo & Hx & Hpv).
  rewrite <- (field_wrap e a b) in Hty, Hfl, Hpo, Hpv by done.
  unfold field in *. simpl. rewrite !Hr, Hty. simpl.
  rewrite Hfl. simpl. rewrite Hpo. simpl.
  unfold is_exec_load in Hx. rewrite Hx, Hpv. done.
Qed.

Lemma phdr_loop_unavailable e e2 n a b :
  reads_as e e2 -> wrap b = wrap a -> unavailable_at e a ->
  phdr_loop (S n) e2 b = Ok e2.
Proof.
  intros Hr Hw H. unfold unavailable_at in H.
  rewrite <- !(field_wrap e a b) in H by done.
  unfold field in *. simpl. rewrite !Hr.
  destruct H as [Hty|[(ty & Hty & Hfl)|[(ty & fl & Hty & Hfl & Hpo)
                |(ty & fl & po & Hty & Hfl & Hpo & Hx & Hpv)]]].
  - by rewrite Hty.
  - rewrite Hty. simpl. by rewrite Hfl.
  - rewrite Hty. simpl. rewrite Hfl. simpl. by rewrite Hpo.
  - rewrite Hty. simpl. rewrite Hfl. simpl. rewrite Hpo. simpl.
    unfold is_exec_load in Hx. by rewrite Hx, Hpv.
Qed.

(** The loop passes over [k] headers that are not executable load segments
    and stands at the header of index [k]. *)
Lemma phdr_loop_skip e e2 k : forall n a b,
  reads_as e e2 -> wrap b = wrap a ->
  (forall j, (j < k)%nat -> other_header_at e (phdr_addr a j)) ->
  exists b', wrap b' = wrap (phdr_addr a k)
             /\ phdr_loop (k + n) e2 b = phdr_loop n e2 b'.
Proof.
  induction k as [|k IH]; intros n a b Hr Hw Hall.
  - exists b. split; [|done]. rewrite Hw. unfold phdr_addr. f_equal. lia.
  - assert (wrap (wrap (b + sizeof_Phdr)) = wrap (a + sizeof_Phdr)) as Hw'.
    { unfold wrap in *. rewrite Zmod_mod.
      by rewrite <- (Zplus_mod_idemp_l b), Hw, Zplus_mod_idemp_l. }
    destruct (IH n (a + sizeof_Phdr) (wrap (b + sizeof_Phdr)) Hr Hw')
      as (b' & Hb' & Heq).
    { intros j Hj.
      replace (phdr_addr (a + sizeof_Phdr) j) with (phdr_addr a (S j))
        by (unfold phdr_addr; lia).
      apply Hall. lia. }
    exists b'. split.
    + rewrite Hb'. f_equal. unfold phdr_addr. lia.
    + rewrite <- Heq. change (S k + n)%nat with (S (k + n)).
      apply (phdr_loop_other e e2 _ a b Hr Hw).
      replace a with (phdr_addr a 0) by (unfold phdr_addr; lia).
      apply Hall. lia.
Qed.

(** The loop computes the first executable load segment. *)
Lemma phdr_loop_spec e e2 n a b o :
  reads_as e e2 -> wrap b = wrap a ->
  first_exec_load e a n o ->
  phdr_loop n e2 b
  = Ok (match o with Some _ => set_load_bias (bias_of o) e2 | None => e2 end).
Proof.
  intros Hr Hw [k pv po Hk Hall Hx|Hall|k Hk Hall Hu].
  - destruct (phdr_loop_skip e e2 k (n - k) a b Hr Hw Hall) as (b' & Hb' & Heq).
    replace (k + (n - k))%nat with n in Heq by lia. rewrite Heq.
    replace (n - k)%nat with (S (n - k - 1)) by lia.
    by apply (phdr_loop_exec_load e e2 _ (phdr_addr a k)).
  - destruct (phdr_loop_skip e e2 n 0 a b Hr Hw Hall) as (b' & Hb' & Heq).
    rewrite Nat.add_0_r in Heq. by rewrite Heq.
  - destruct (phdr_loop_skip e e2 k (n - k) a b Hr Hw Hall) as (b' & Hb' & Heq).
    replace (k + (n - k))%nat with n in Heq by lia. rewrite Heq.
    replace (n - k)%nat with (S (n - k - 1)) by lia.
    by apply (phdr_loop_unavailable e e2 _ (phdr_addr a k)).
Qed.

(** [ReadLoadbias] stores the bias the scan determines. *)
Lemma ReadLoadbias_spec e e2 o :
  reads_as e e2 -> start e2 = start e -> scan_spec e o ->
  ReadLoadbias e2 = Ok (set_load_bias (bias_of o) e2).
Proof.
  intros Hr Hs Hscan.
  assert (reads_as e (set_load_bias 0 e2)) as Hr0 by (intros a sz; apply Hr).
  unfold ReadLoadbias. cbv zeta.
  change (start (set_load_bias 0 e2)) with (start e2). rewrite Hs.
  destruct Hscan as [Hn|n Hn Hp|n po o Hn Hp Hfel];
    unfold field in *; rewrite !Hr0, Hn; simpl.
  - done.
  - by rewrite Hp.
  - rewrite Hp. simpl.
    rewrite (phdr_loop_spec e _ _ (start e + po) _ o Hr0); [|unfold wrap; by rewrite Zmod_mod|done].
    by destruct o.
Qed.

(** ** Inspection *)

(** C4, amended: for an entry not yet inspected, [valid] after [Init] tells
    whether the ELF magic was found, whatever the program-header scan
    finds; when the magic was found, the bias is [p_vaddr - p_offset] of the
    first executable load segment, and 0 when the scan finds none or a
    required field is unavailable. *)
Theorem Init_inspection e :
  init e = false -> valid e = false ->
  (forall e', Init e = Ok e' -> (valid e' = true <-> ValidElf e = Ok true))
  /\ (forall o, ValidElf e = Ok true -> scan_spec e o ->
        Init e = Ok (set_load_bias (bias_of o) (set_valid true (set_init true e)))
        /\ forall e', Init e = Ok e' ->
             valid e' = true /\ load_bias e' = bias_of o).
Proof.
  intros Hi Hv. split.
  - intros e' H. apply Init_shape in H as [[Hm ->]|[Hm [v ->]]]; [|done|].
    + simpl. rewrite Hv, Hm. split; discriminate.
    + by simpl.
  - intros o Hm Hscan.
    assert (Init e = Ok (set_load_bias (bias_of o)
                           (set_valid true (set_init true e)))) as Heq.
    { unfold Init. rewrite Hi. cbv zeta.
      change (ValidElf (set_init true e)) with (ValidElf e). rewrite Hm. simpl.
      by apply (ReadLoadbias_spec e). }
    split; [done|]. intros e'. rewrite Heq. by intros [= <-].
Qed.

(** X23: what the code takes for a valid ELF image: the sum [start + 4]
    does not overflow and is below the end of the entry, and the four bytes
    at the start are the magic. *)
Lemma ValidElf_true e :
  ValidElf e = Ok true
  <-> start e + SELFMAG < ptr_mod /\ start e + SELFMAG < end_ e
      /\ load_bytes (start e) (Z.to_nat SELFMAG) = Ok ELFMAG.
Proof.
  unfold ValidElf. cbv zeta.
  destruct (ptr_mod <=? start e + SELFMAG) eqn:E1;
    destruct (end_ e <=? start e + SELFMAG) eqn:E2; simpl;
    try (split; [discriminate | lia]).
  apply Z.leb_gt in E1, E2. split.
  - intros H. apply bind_Ok in H as (bs & Hbs & [= H]).
    apply bool_decide_eq_true in H. subst bs. done.
  - intros (_ & _ & ->). done.
Qed.

(** ** GetVal *)

(** A value comes back only from a readable entry, at an aligned address not
    below its start, and with [addr + sizeof(T)], as [uintptr_t] computes it,
    not above its end. *)
Lemma GetVal_Some e a size v :
  GetVal e a size = Ok (Some v) ->
  Z.land (flags e) PROT_READ <> 0 /\ start e <= a
  /\ wrap (a + size) <= end_ e /\ Z.land a (size - 1) = 0.
Proof.
  unfold GetVal.
  destruct (Z.land (flags e) PROT_READ =? 0) eqn:E1; [done|].
  destruct (a <? start e) eqn:E2; [done|].
  destruct (end_ e <? wrap (a + size)) eqn:E3; [done|].
  destruct (Z.land a (size - 1) =? 0) eqn:E4; [|done].
  intros _. lia.
Qed.

(** When the sum does not wrap, the bytes read are those of the entry. *)
Lemma GetVal_within e a size v :
  0 <= a + size < ptr_mod ->
  GetVal e a size = Ok (Some v) ->
  start e <= a /\ a + size <= end_ e.
Proof.
  intros Hr H. apply GetVal_Some in H as (_ & Hs & He & _).
  rewrite wrap_small in He by done. done.
Qed.

(** An entry without the read bit is never read, whatever the memory. *)
Lemma GetVal_unreadable e a size :
  Z.land (flags e) PROT_READ = 0 -> GetVal e a size = Ok None.
Proof. intros H. unfold GetVal. by rewrite H. Qed.

(** ** Parsing *)

(** C7: the entry made from a mapping line whose permission string does not
    start with the read bit has [init = true], [valid = false] and
    [load_bias = 0]; whatever the memory holds, [Init] leaves it as it is and
    no read through it is attempted. *)
Theorem ParseLine_unreadable line e :
  ParseLine line = Ok (Some e) ->
  nth 0 (s_permissions (sscanf_maps line)) Ascii.zero <> "r"%char ->
  init e = true /\ valid e = false /\ load_bias e = 0
  /\ forall env' : Env,
       @Init env' e = Ok e
       /\ forall a size, @GetVal env' e a size = Ok None.
Proof.
  intros H Hr. apply Ascii.eqb_neq in Hr.
  unfold ParseLine in H. cbv zeta in H. rewrite Hr in H.
  destruct (assigned _ <? 2); [done|].
  destruct (_ || _); [done|].
  set (fl := if Ascii.eqb (nth 2 _ _) _ then _ else _) in H.
  assert (Z.land fl PROT_READ = 0) as Hfl by (subst fl; by destruct (Ascii.eqb _ _)).
  rewrite Hfl in H. simpl in H. injection H as <-.
  repeat split; try done.
  intros a size. unfold GetVal. simpl. by rewrite Hfl.
Qed.

(** ** Rebuilding the table *)

Lemma set_insert_sublist key l : l `sublist_of` set_insert key l.
Proof.
  unfold set_insert. destruct (set_find key l); [done|].
  rewrite <- (take_drop (lower_bound key l) l) at 1.
  apply sublist_app; [done|]. by apply sublist_cons.
Qed.

Lemma set_insert_elem key l e :
  e ∈ set_insert key l -> e ∈ l \/ e = key.
Proof.
  unfold set_insert. destruct (set_find key l); [by left|].
  rewrite elem_of_app, elem_of_cons. intros [H|[->|H]]; [left|by right|left].
  - by apply (subseteq_take (lower_bound key l)).
  - by apply (subseteq_drop (lower_bound key l)).
Qed.

Lemma read_lines_keeps lines : forall entries b entries',
  read_lines lines entries = Ok (b, entries') ->
  entries `sublist_of` entries'
  /\ forall e, e ∈ entries' ->
       e ∈ entries \/ exists line, line ∈ lines /\ ParseLine line = Ok (Some e).
Proof.
  induction lines as [|line rest IH]; intros entries b entries'; simpl.
  - intros [= <- <-]. split; [done|]. by left.
  - intros H. apply bind_Ok in H as ([fresh|] & Hp & H).
    + assert (exists mid, read_lines rest mid = Ok (b, entries')
                /\ entries `sublist_of` mid
                /\ forall e, e ∈ mid -> e ∈ entries \/ e = fresh)
        as (mid & Hmid & Hsub & Hel).
      { destruct (set_find fresh entries).
        - exists entries. split; [done|]. split; [done|]. by left.
        - exists (set_insert fresh entries). split; [done|].
          split; [apply set_insert_sublist | apply set_insert_elem]. }
      apply IH in Hmid as [Hsub' Hel']. split; [by etrans|].
      intros e He. apply Hel' in He as [He|(l & Hl & Hpl)].
      * apply Hel in He as [He| ->]; [by left|].
        right. exists line. split; [left | done].
      * right. exists l. split; [by right | done].
    + injection H as <- <-. split; [done|]. by left.
Qed.

(** [fgets] splits the stream in two. *)
Lemma fgets_app n : forall s, ((fgets n s).1 ++ (fgets n s).2)%string = s.
Proof.
  induction n as [|n IH]; intros [|c s]; simpl; try done.
  destruct (Ascii.eqb c newline); [done|].
  specialize (IH s). destruct (fgets n s) as [l r]. simpl in *. by rewrite IH.
Qed.

Lemma length_append (s1 s2 : string) :
  String.length (s1 ++ s2) = (String.length s1 + String.length s2)%nat.
Proof. induction s1 as [|c s1 IH]; simpl; [done | by rewrite IH]. Qed.

(** A call with room for a character takes at least one. *)
Lemma fgets_shrinks n c s :
  (String.length (fgets (S n) (String c s)).2 < String.length (String c s))%nat.
Proof.
  change (fgets (S n) (String c s)) with
    (if Ascii.eqb c newline then (String c EmptyString, s)
     else let (l, r) := fgets n s in (String c l, r)).
  destruct (Ascii.eqb c newline); [simpl; lia|].
  pose proof (fgets_app n s) as Ha. apply (f_equal String.length) in Ha.
  rewrite length_append in Ha.
  destruct (fgets n s) as [l r]. simpl in *. lia.
Qed.

Lemma fgets_lines_step fuel c s :
  fgets_lines (S fuel) (String c s)
  = (fgets 1023 (String c s)).1 :: fgets_lines fuel (fgets 1023 (String c s)).2.
Proof.
  change (fgets_lines (S fuel) (String c s)) with
    (let (l, r) := fgets 1023 (String c s) in l :: fgets_lines fuel r).
  by destruct (fgets 1023 (String c s)).
Qed.

(** The loop of [ReadMaps] sees the whole of the mapping description: the
    bound on the number of lines is never reached. *)
Lemma maps_lines_whole content : join_lines (maps_lines content) = content.
Proof.
  unfold maps_lines.
  assert (forall fuel s, (String.length s <= fuel)%nat ->
            join_lines (fgets_lines fuel s) = s) as H; [|by apply H].
  induction fuel as [|fuel IH]; intros [|c s] Hlen; try done.
  - simpl in Hlen. lia.
  - rewrite fgets_lines_step.
    pose proof (fgets_shrinks 1022 c s) as Hs.
    pose proof (fgets_app 1023 (String c s)) as Ha.
    unfold join_lines in *. cbn [foldr]. rewrite IH; [done|].
    cbn [String.length] in *. lia.
Qed.

Lemma set_insert_hit key l p : set_find key l = Some p -> set_insert key l = l.
Proof. intros H. unfold set_insert. by rewrite H. Qed.

(** The rebuild inserts the entry of every line it reads, one after the
    other, and it reads the lines up to the first that does not parse. *)
Lemma read_lines_added lines : forall entries b entries',
  read_lines lines entries = Ok (b, entries') ->
  exists seen rest es,
    lines = seen ++ rest
    /\ Forall2 (fun line e => ParseLine line = Ok (Some e)) seen es
    /\ (if b then rest = []
        else exists bad rest', rest = bad :: rest' /\ ParseLine bad = Ok None)
    /\ entries' = foldl (fun t e => set_insert e t) entries es
    /\ forall e, e ∈ es ->
         exists x, x ∈ entries'
                   /\ (x = e \/ (compare_entries x e = false
                                 /\ compare_entries e x = false)).
Proof.
  induction lines as [|line lines IH]; intros entries b entries' H; simpl in H.
  - injection H as <- <-. exists [], [], [].
    split; [done|]. split; [constructor|]. split; [done|]. split; [done|].
    intros e He. by apply elem_of_nil in He.
  - apply bind_Ok in H as ([fresh|] & Hp & H).
    + assert (read_lines lines (set_insert fresh entries) = Ok (b, entries'))
        as Hmid.
      { destruct (set_find fresh entries) as [p|] eqn:Hf; [|done].
        by rewrite (set_insert_hit _ _ _ Hf). }
      assert (exists x, x ∈ set_insert fresh entries
                        /\ (x = fresh \/ (compare_entries x fresh = false
                                          /\ compare_entries fresh x = false)))
        as (x & Hx & Hxe).
      { destruct (set_find fresh entries) as [[i x]|] eqn:Hf.
        - exists x. rewrite (set_insert_hit _ _ _ Hf).
          apply set_find_inv in Hf as (Hi & H1 & H2 & _).
          split; [by eapply list_elem_of_lookup_2 | by right].
        - exists fresh. split; [|by left].
          unfold set_insert. rewrite Hf, elem_of_app, elem_of_cons. auto. }
      destruct (IH _ _ _ Hmid) as (seen & rest & es & Hl & Hall & Hb & Hfold & Hin).
      apply read_lines_keeps in Hmid as [Hsub _].
      exists (line :: seen), rest, (fresh :: es).
      split; [simpl; by rewrite Hl|]. split; [by constructor|].
      split; [done|]. split; [done|].
      intros e He. apply elem_of_cons in He as [->|He]; [|by apply Hin].
      exists x. split; [by eapply elem_of_sublist | done].
    + injection H as <- <-. exists [], (line :: lines), [].
      split; [done|]. split; [constructor|]. split; [by exists line, lines|].
      split; [done|]. intros e He. by apply elem_of_nil in He.
Qed.

(** C6, amended: a rebuild adds the freshly parsed entries to the table and
    removes none.  The entries from before the rebuild all remain, in their
    order, and every other entry of the table was parsed from a line of the
    mapping description.  The rebuild reads the lines up to the first that
    does not parse, all of them when it returns [true], and the table it
    leaves is the old table with the entry of each line read inserted, one
    after the other: each such entry is in the table afterwards, or an entry
    equivalent to it under the ordering of the table is.  When the mapping
    description does not open, the table is left as it is. *)
Theorem ReadMaps_keeps_entries entries b entries' :
  ReadMaps entries = Ok (b, entries') ->
  entries `sublist_of` entries'
  /\ (forall e, e ∈ entries -> e ∈ entries')
  /\ (forall e, e ∈ entries' ->
        e ∈ entries
        \/ exists content line,
             proc_self_maps = Some content
             /\ line ∈ maps_lines content
             /\ ParseLine line = Ok (Some e))
  /\ match proc_self_maps with
     | None => b = false /\ entries' = entries
     | Some content =>
         exists seen rest es,
           maps_lines content = seen ++ rest
           /\ Forall2 (fun line e => ParseLine line = Ok (Some e)) seen es
           /\ (if b then rest = []
               else exists bad rest',
                      rest = bad :: rest' /\ ParseLine bad = Ok None)
           /\ entries' = foldl (fun t e => set_insert e t) entries es
           /\ forall e, e ∈ es ->
                exists x, x ∈ entries'
                          /\ (x = e \/ (compare_entries x e = false
                                        /\ compare_entries e x = false))
     end.
Proof.
  unfold ReadMaps. destruct proc_self_maps as [content|] eqn:E.
  - intros H. pose proof (read_lines_added _ _ _ _ H) as Hadd.
    apply read_lines_keeps in H as [Hsub Hel].
    split; [done|]. split; [|split; [|done]].
    + intros e He. by eapply elem_of_sublist.
    + intros e He. apply Hel in He as [He|(l & Hl & Hp)]; [by left|].
      right. by exists content, l.
  - intros [= <- <-]. split; [done|]. split; [done|]. split; [by left | done].
Qed.

(** ** Formatting *)

(** A frame whose address is in no mapping, even after the rebuild, ends the
    process: the entry is used before it is compared with [nullptr]. *)
Lemma format_frame_unresolved st cursor frame entries1 :
  find_entry (f_entries st) frame = Ok (entries1, None) ->
  format_frame st cursor frame = Fault NullDeref.
Proof.
  intros H. unfold format_frame, CalculateRelPc. rewrite H. done.
Qed.

End Properties.

(** * The properties at work *)

(** ** Resolution *)

(** A pc [0x234] bytes into [libbar], whose load bias is [0x4000]. *)
Lemma CalculateRelPc_valid_entry_witness :
  CalculateRelPc (env := env_libbar) [libbar_entry] 0x7200000234 (Some 0)
  = Ok ([set_load_bias 0x4000 (set_valid true (set_init true libbar_entry))],
        Some O, Some 0x4234).
Proof.
  refine (proj1 (CalculateRelPc_valid_entry (env := env_libbar)
                   [libbar_entry] 0x7200000234 0 [libbar_entry] O libbar_entry
                   (set_load_bias 0x4000 (set_valid true (set_init true libbar_entry)))
                   _ _ _)).
  - vm_compute. reflexivity.
  - vm_compute. reflexivity.
  - reflexivity.
Defined.

(** A pc [0x234] bytes into the code of the library in the archive: the
    header is in the mapping before, at file offset [0x2000]. *)
Lemma CalculateRelPc_split_mapping_witness :
  CalculateRelPc (env := env_apk) apk_entries 0x7100001234 (Some 0)
  = Ok ([ set_load_bias 0x4000 (set_valid true (set_init true apk_header_entry));
          set_elf_start_offset 0x2000 (set_init true apk_code_entry);
          apk_guard_entry ],
        Some 1%nat, Some 0x7234).
Proof.
  refine (proj1 (CalculateRelPc_split_mapping (env := env_apk)
                   apk_entries 0x7100001234 0 apk_entries O
                   apk_code_entry (set_init true apk_code_entry)
                   apk_header_entry
                   (set_load_bias 0x4000
                      (set_valid true (set_init true apk_header_entry)))
                   _ _ _ _ _ _ _ _ _)).
  - vm_compute. reflexivity.
  - vm_compute. reflexivity.
  - reflexivity.
  - reflexivity.
  - reflexivity.
  - simpl. lia.
  - reflexivity.
  - vm_compute. reflexivity.
  - reflexivity.
Defined.

(** The same pc with a null [rel_pc]: the header mapping stays uninspected
    and no ELF start offset is recorded. *)
Lemma CalculateRelPc_null_rel_pc_witness :
  exists entries',
    CalculateRelPc (env := env_apk) apk_entries 0x7100001234 None
    = Ok (entries', Some 1%nat, None)
    /\ entries' !! 1%nat = Some (set_init true apk_code_entry)
    /\ elf_start_offset (set_init true apk_code_entry)
       = elf_start_offset apk_code_entry
    /\ forall j, j <> 1%nat -> entries' !! j = apk_entries !! j.
Proof.
  refine (CalculateRelPc_null_rel_pc (env := env_apk)
            apk_entries 0x7100001234 apk_entries 1%nat
            apk_code_entry (set_init true apk_code_entry) _ _).
  - vm_compute. reflexivity.
  - vm_compute. reflexivity.
Defined.

(** ** Inspection *)

(** [libbar]: the second program header is the first executable load
    segment. *)
Lemma Init_inspection_witness :
  Init (env := env_libbar) libbar_entry
  = Ok (set_load_bias 0x4000 (set_valid true (set_init true libbar_entry))).
Proof.
  refine (proj1 (proj2 (Init_inspection (env := env_libbar) libbar_entry _ _)
                   (Some (0x5000, 0x1000)) _ _)).
  - reflexivity.
  - reflexivity.
  - vm_compute. reflexivity.
  - apply (scan_headers _ 2 64); [vm_compute; reflexivity..|].
    apply (fel_found _ _ _ 1%nat); [vm_compute; lia| |].
    + intros j Hj. assert (j = O) as -> by lia.
      exists 6, 4, 64. repeat split; vm_compute; reflexivity.
    + exists PT_LOAD, 5. repeat split; vm_compute; reflexivity.
Defined.

(** C4, as stated, fails: an image with the ELF magic and no executable load
    segment is valid after inspection. *)
Lemma Init_valid_without_exec_load :
  init libdata_entry = false
  /\ scan_spec (env := env_libdata) libdata_entry None
  /\ exists e',
       Init (env := env_libdata) libdata_entry = Ok e'
       /\ load_bias e' = 0 /\ valid e' <> false.
Proof.
  split; [reflexivity|]. split.
  - apply (scan_headers _ 1 64); [vm_compute; reflexivity..|].
    apply fel_none. intros j Hj. assert (j = O) as -> by (vm_compute in Hj; lia).
    exists PT_LOAD, 4, 0. repeat split; vm_compute; reflexivity.
  - exists (set_valid true (set_init true libdata_entry)).
    split; [vm_compute; reflexivity|]. split; [reflexivity|discriminate].
Qed.

(** C5: a mapping of exactly four bytes that holds the ELF magic is taken for
    invalid, although the four bytes read end where the mapping ends. *)
Theorem ValidElf_four_byte_mapping :
  end_ magic_entry = start magic_entry + SELFMAG
  /\ load_bytes (env := env_magic) (start magic_entry) (Z.to_nat SELFMAG) = Ok ELFMAG
  /\ ValidElf (env := env_magic) magic_entry = Ok false.
Proof. repeat split; vm_compute; reflexivity. Qed.

(** C2: a read of four bytes at the last aligned address passes the bound
    check of an entry that ends far below it, since the sum wraps to 0; the
    read faults, or returns what is mapped there. *)
Theorem GetVal_wraps_past_end :
  end_ libdata_entry <= top_word
  /\ GetVal (env := env_libdata) libdata_entry top_word 4
     = Fault (SegFault top_word)
  /\ GetVal (env := env_top_mapped) libdata_entry top_word 4
     = Ok (Some 0x04030201).
Proof. repeat split; vm_compute; (reflexivity || discriminate). Qed.

(** The same read reached from [Init], through the [e_phoff] of a crafted
    header. *)
Example Init_crafted_phoff :
  Init (env := env_libevil) libdata_entry = Fault (SegFault top_word).
Proof. vm_compute. reflexivity. Qed.

(** ** Parsing and rebuilding *)

(** The third line of [apk_maps]. *)
Lemma ParseLine_unreadable_witness :
  init apk_guard_entry = true /\ valid apk_guard_entry = false
  /\ load_bias apk_guard_entry = 0
  /\ forall env' : Env,
       @Init env' apk_guard_entry = Ok apk_guard_entry
       /\ forall a size, @GetVal env' apk_guard_entry a size = Ok None.
Proof.
  refine (ParseLine_unreadable (env := env_apk)
            ("7100003000-7100004000 ---p 00000000 00:00 0 " ++ nl)%string
            apk_guard_entry _ _).
  - vm_compute. reflexivity.
  - vm_compute. discriminate.
Defined.

(** A rebuild from [libfoo_maps] of a table that holds a stale entry. *)
Lemma ReadMaps_keeps_entries_witness :
  [stale_entry] `sublist_of` (stale_entry :: libfoo_entries)
  /\ (forall e, e ∈ [stale_entry] -> e ∈ stale_entry :: libfoo_entries)
  /\ (forall e, e ∈ stale_entry :: libfoo_entries ->
        e ∈ [stale_entry]
        \/ exists content line,
             Some libfoo_maps = Some content
             /\ line ∈ maps_lines content
             /\ ParseLine (env := env_libfoo) line = Ok (Some e))
  /\ exists seen rest es,
       maps_lines libfoo_maps = seen ++ rest
       /\ Forall2 (fun line e => ParseLine (env := env_libfoo) line = Ok (Some e))
                  seen es
       /\ rest = []
       /\ stale_entry :: libfoo_entries
          = foldl (fun t e => set_insert (env := env_libfoo) e t) [stale_entry] es
       /\ forall e, e ∈ es ->
            exists x, x ∈ stale_entry :: libfoo_entries
                      /\ (x = e \/ (compare_entries_spec x e = false
                                    /\ compare_entries_spec e x = false)).
Proof.
  refine (ReadMaps_keeps_entries (env := env_libfoo)
            [stale_entry] true (stale_entry :: libfoo_entries) _).
  vm_compute. reflexivity.
Defined.

(** C6, as stated, fails: after a successful rebuild the table is not the
    freshly parsed snapshot; an entry that no line of the mapping description
    gives is still in it. *)
Lemma ReadMaps_keeps_stale_entry :
  ReadMaps (env := env_libfoo) [] = Ok (true, libfoo_entries)
  /\ ReadMaps (env := env_libfoo) [stale_entry]
     = Ok (true, stale_entry :: libfoo_entries)
  /\ stale_entry ∉ libfoo_entries.
Proof.
  split; [vm_compute; reflexivity|]. split; [vm_compute; reflexivity|].
  unfold libfoo_entries. rewrite !not_elem_of_cons. repeat split; try discriminate.
  apply not_elem_of_nil.
Qed.

(** ** Formatting *)

(** C1: the second frame is in no mapping; the backtrace is not formatted,
    the process faults. *)
Theorem FormatBacktrace_unresolved_frame :
  find_entry (env := env_libfoo) libfoo_entries 0x10 = Ok (libfoo_entries, None)
  /\ FormatBacktrace (env := env_libfoo) libfoo_entries
       [0x7000001234; 0x10; 0x7000001240]
     = Fault NullDeref.
Proof. split; vm_compute; reflexivity. Qed.

(** C8: the lookup finds [foo()] for the first frame and nothing for the
    second, and the line of the second frame names [foo()] all the same. *)
Theorem FormatBacktrace_stale_symbol :
  dladdr (Env := env_symbols) 0x7200000300 = None
  /\ exists entries',
       FormatBacktrace (env := env_symbols) [libbar_entry]
         [0x7200000234; 0x7200000300]
       = Ok (entries',
             ("          #00  pc 0000000000004234  /system/lib64/libbar.so (foo()+52)" ++ nl
              ++ "          #01  pc 0000000000004300  /system/lib64/libbar.so (foo()+256)" ++ nl)%string).
Proof.
  split; [reflexivity|]. eexists. vm_compute. reflexivity.
Qed.

(** * Further properties of the code *)

Section Reads.
Context `{env : Env}.

(** ** Safe reads *)

Lemma load_bytes_mapped n : forall a,
  (forall k, a <= k < a + Z.of_nat n -> is_Some (mem k)) ->
  exists bs, load_bytes a n = Ok bs.
Proof.
  induction n as [|n IH]; intros a Hm; simpl; [by eexists|].
  destruct (Hm a) as [b Hb]; [lia|]. rewrite Hb.
  destruct (IH (a + 1)) as [bs Hbs]; [intros k Hk; apply Hm; lia|].
  rewrite Hbs. by eexists.
Qed.

(** X1: [GetVal] gives a value only for an entry with the read bit, at an
    address not below the start of the entry and aligned for the size; the
    value is the one stored at the address, and when [addr + sizeof(T)] does
    not wrap the bytes read end within the entry. *)
Theorem GetVal_sound e a size v :
  GetVal e a size = Ok (Some v) ->
  Z.land (flags e) PROT_READ <> 0
  /\ start e <= a
  /\ Z.land a (size - 1) = 0
  /\ deref a size = Ok v
  /\ (0 <= a + size < ptr_mod -> a + size <= end_ e).
Proof.
  intros H. pose proof (GetVal_Some _ _ _ _ H) as (Hf & Hs & He & Ha).
  repeat split; try done.
  - unfold GetVal in H.
    destruct (_ || _); [done|]. destruct (negb _); [done|].
    apply bind_Ok in H as (v' & Hv & [= ->]). done.
  - intros Hr. by rewrite wrap_small in He.
Qed.

(** X2: as long as [addr + sizeof(T)] does not wrap, [GetVal] on an entry
    whose range is mapped never faults: it reads inside the entry or not at
    all. *)
Theorem GetVal_no_fault e a size :
  mapped e -> 0 <= size -> 0 <= a + size < ptr_mod ->
  exists r, GetVal e a size = Ok r.
Proof.
  intros Hm Hsz Hr. unfold GetVal.
  destruct (Z.land (flags e) PROT_READ =? 0); [by eexists|].
  destruct (a <? start e) eqn:E2; [by eexists|].
  destruct (end_ e <? wrap (a + size)) eqn:E3; [by eexists|].
  simpl. destruct (negb _); [by eexists|].
  rewrite wrap_small in E3 by done.
  unfold deref.
  destruct (load_bytes_mapped (Z.to_nat size) a) as [bs Hbs].
  { intros k Hk. apply Hm. lia. }
  rewrite Hbs. by eexists.
Qed.

(** X3: [ValidElf] never faults on an entry whose range is mapped, wherever
    the entry lies in the address space, and it reads nothing at all from an
    entry of four bytes or fewer. *)
Theorem ValidElf_no_fault e :
  (mapped e -> exists b, ValidElf e = Ok b)
  /\ (end_ e <= start e + SELFMAG -> ValidElf e = Ok false).
Proof.
  split.
  - intros Hm. unfold ValidElf. cbv zeta.
    destruct (ptr_mod <=? start e + SELFMAG); [by eexists|].
    destruct (end_ e <=? start e + SELFMAG) eqn:E; [by eexists|]. cbn [orb].
    apply Z.leb_gt in E.
    destruct (load_bytes_mapped (Z.to_nat SELFMAG) (start e)) as [bs Hbs].
    { intros k Hk. apply Hm. unfold SELFMAG in *. lia. }
    rewrite Hbs. by eexists.
  - intros H. unfold ValidElf. cbv zeta.
    apply Z.leb_le in H. rewrite H. by rewrite orb_true_r.
Qed.

(** X4: [Init] touches [init], [valid] and [load_bias] only: range, file
    offset, name, flags and ELF start offset are as before; the entry is
    inspected afterwards, and a second [Init] changes nothing, whatever the
    memory holds by then. *)
Theorem Init_frame e e' :
  Init e = Ok e' ->
  same_mapping e e'
  /\ elf_start_offset e' = elf_start_offset e
  /\ init e' = true
  /\ forall env' : Env, @Init env' e' = Ok e'.
Proof.
  intros H. pose proof (Init_same_mapping _ _ H) as [Hs Ho].
  pose proof (Init_inspected _ _ H) as Hi.
  repeat split; try apply Hs; try done.
  intros env'. unfold Init. by rewrite Hi.
Qed.

End Reads.

Section Parsing.
Context `{env : Env}.

(** ** Mapping lines *)

Lemma substring_before_last : forall s n,
  String.length s = S n -> String.get n s = Some newline ->
  (String.substring 0 n s ++ nl)%string = s.
Proof.
  induction s as [|c s IH]; intros n Hl Hg; [done|].
  injection Hl as Hl. destruct n as [|m].
  - destruct s; [|done]. simpl in Hg. by injection Hg as ->.
  - cbn [String.substring String.append]. f_equal. by apply IH.
Qed.

Lemma substring_init s :
  ends_with_newline s = true ->
  (String.substring 0 (String.length s - 1) s ++ nl)%string = s.
Proof.
  unfold ends_with_newline. intros H.
  destruct (String.get (String.length s - 1) s) as [c|] eqn:Hg; [|done].
  apply Ascii.eqb_eq in H. subst c.
  destruct s as [|c s]; [done|].
  apply substring_before_last; [simpl; lia | done].
Qed.

Lemma substring_whole s : String.substring 0 (String.length s) s = s.
Proof. induction s as [|c s IH]; [done|]. simpl. by rewrite IH. Qed.

Lemma string_drop_app n : forall s,
  (n <= String.length s)%nat ->
  exists pre, String.length pre = n /\ s = (pre ++ string_drop n s)%string.
Proof.
  induction n as [|n IH]; intros s Hn.
  - by exists EmptyString.
  - destruct s as [|c s]; [simpl in Hn; lia|].
    destruct (IH s) as (pre & Hl & Hs); [simpl in Hn; lia|].
    exists (String c pre). split; [simpl; by rewrite Hl|].
    simpl. by rewrite <- Hs.
Qed.

(** X5: [ParseLine] gives no entry exactly when [sscanf] assigned fewer than
    two fields.  The entry it gives has the start, end and offset scanned,
    the read bit when the permission string starts with [r] and the execute
    bit when its third character is [x], and no other flag; it carries no
    ELF start offset and is not valid, and it counts as inspected exactly
    when it lacks the read bit. *)
Theorem ParseLine_fields line :
  let r := sscanf_maps line in
  let perm_r := Ascii.eqb (nth 0 (s_permissions r) Ascii.zero) "r"%char in
  let perm_x := Ascii.eqb (nth 2 (s_permissions r) Ascii.zero) "x"%char in
  (ParseLine line = Ok None <-> assigned r < 2)
  /\ forall e, ParseLine line = Ok (Some e) ->
       start e = s_start r /\ end_ e = s_end r /\ offset e = s_offset r
       /\ flags e = (if perm_r then PROT_READ else 0)
                    + (if perm_x then PROT_EXEC else 0)
       /\ load_bias e = 0 /\ elf_start_offset e = 0
       /\ valid e = false /\ init e = negb perm_r.
Proof.
  intros r perm_r perm_x. unfold ParseLine. cbv zeta.
  fold r. fold perm_r. fold perm_x.
  destruct (assigned r <? 2) eqn:E1.
  { apply Z.ltb_lt in E1. split; [done|]. discriminate. }
  apply Z.ltb_ge in E1.
  destruct (_ || _).
  { split; [|discriminate]. split; [discriminate|lia]. }
  split.
  - split; [|lia]. destruct perm_r, perm_x; discriminate.
  - intros e. destruct perm_r, perm_x; simpl; intros [= <-]; by repeat split.
Qed.

(** X6: the name of the entry is the rest of the line from the position
    [sscanf] reports, less one trailing newline. *)
Theorem ParseLine_name line e :
  ParseLine line = Ok (Some e) ->
  exists pre,
    Z.of_nat (String.length pre) = s_name_pos (sscanf_maps line)
    /\ (line = (pre ++ name e ++ nl)%string
        \/ (line = (pre ++ name e)%string /\ ends_with_newline (name e) = false)).
Proof.
  unfold ParseLine. cbv zeta. set (r := sscanf_maps line).
  destruct (assigned r <? 2); [done|].
  destruct (s_name_pos r <? 0) eqn:E1; [done|].
  destruct (Z.of_nat (String.length line) <? s_name_pos r) eqn:E2; [done|].
  apply Z.ltb_ge in E1, E2. cbn [orb].
  destruct (string_drop_app (Z.to_nat (s_name_pos r)) line) as (pre & Hl & Hs);
    [lia|].
  set (rest := string_drop (Z.to_nat (s_name_pos r)) line) in *.
  intros H. exists pre. split; [lia|].
  assert (name e = String.substring 0
            (if negb (Nat.eqb (String.length rest) 0) && ends_with_newline rest
             then (String.length rest - 1)%nat else String.length rest) rest)
    as Hn.
  { destruct (Z.land _ PROT_READ =? 0); by injection H as <-. }
  clear H. destruct (ends_with_newline rest) eqn:En.
  - left. destruct (Nat.eqb (String.length rest) 0) eqn:E0.
    + apply Nat.eqb_eq in E0. destruct rest; [done|discriminate].
    + simpl in Hn. rewrite Hn, substring_init by done. done.
  - right. rewrite andb_false_r, substring_whole in Hn.
    rewrite Hn. by split.
Qed.

(** ** The container *)

Lemma lower_bound_le key l : (lower_bound key l <= length l)%nat.
Proof.
  induction l as [|x l IH]; simpl; [lia|].
  destruct (compare_entries x key); lia.
Qed.

Lemma lookup_inserted key (l : list MapEntry) i k :
  (i <= length l)%nat ->
  (take i l ++ key :: drop i l) !! k
  = if decide (k < i)%nat then l !! k
    else if decide (k = i) then Some key else l !! (k - 1)%nat.
Proof.
  intros Hi. destruct (decide (k < i)%nat) as [Hk|Hk].
  - rewrite lookup_app_l by (rewrite length_take; lia).
    by rewrite lookup_take_lt.
  - rewrite lookup_app_r by (rewrite length_take; lia).
    rewrite length_take, Nat.min_l by lia.
    destruct (decide (k = i)) as [->|Hne].
    + by rewrite Nat.sub_diag.
    + replace (k - i)%nat with (S (k - i - 1)) by lia. simpl.
      rewrite lookup_drop. f_equal. lia.
Qed.

(** X8: after [insert], [find] with the same key hits, provided the ordering
    does not put the key before itself: it returns the equivalent entry that
    was in the table already, and otherwise the key, at the place it was
    inserted. *)
Theorem set_insert_find key l :
  compare_entries key key = false ->
  exists i e,
    set_find key (set_insert key l) = Some (i, e)
    /\ (set_find key l = Some (i, e)
        \/ (set_find key l = None /\ e = key /\ i = lower_bound key l)).
Proof.
  intros Hirr. unfold set_insert.
  destruct (set_find key l) as [[i e]|] eqn:Hf.
  - exists i, e. split; [done | by left].
  - exists (lower_bound key l), key.
    pose proof (lower_bound_le key l) as Hle.
    assert ((take (lower_bound key l) l ++ key :: drop (lower_bound key l) l)
              !! lower_bound key l = Some key) as Hat.
    { rewrite lookup_inserted by done.
      destruct (decide _); [lia|]. by destruct (decide _). }
    split; [|right; done].
    unfold set_find.
    rewrite (lower_bound_at key _ (lower_bound key l) key Hat); [|  |done].
    + by rewrite Hat, Hirr.
    + intros j e' Hj. rewrite lookup_inserted by done.
      destruct (decide _); [|lia]. by apply lower_bound_before.
Qed.

End Parsing.

Section Table.
Context `{env : Env}.

(** ** Rebuilds, line by line *)

(** Lines that all parse are read one after the other. *)
Lemma read_lines_app l1 : forall l2 entries mid,
  read_lines l1 entries = Ok (true, mid) ->
  read_lines (l1 ++ l2) entries = read_lines l2 mid.
Proof.
  induction l1 as [|line l1 IH]; intros l2 entries mid; simpl.
  - by intros [= <-].
  - intros H. destruct (ParseLine line) as [[fresh|]|]; simpl in *; [|done..].
    destruct (set_find fresh entries); by apply IH.
Qed.

(** X9: a line that does not parse ends the rebuild with [false]; the entries
    of the lines before it are in the table by then and stay there, and the
    lines after it are not read. *)
Theorem ReadMaps_bad_line entries content l1 bad l2 mid :
  proc_self_maps = Some content ->
  maps_lines content = l1 ++ bad :: l2 ->
  read_lines l1 entries = Ok (true, mid) ->
  ParseLine bad = Ok None ->
  ReadMaps entries = Ok (false, mid).
Proof.
  intros Hc Hl H1 Hb. unfold ReadMaps. rewrite Hc, Hl.
  rewrite (read_lines_app _ _ _ _ H1). simpl. by rewrite Hb.
Qed.

(** ** The order of the table *)

Lemma set_insert_ordered key l :
  compare_entries = compare_entries_spec ->
  ordered_table l -> start key < end_ key ->
  ordered_table (set_insert key l).
Proof.
  intros Hc [Hne Hord] Hkey. unfold set_insert.
  destruct (set_find key l) as [p|] eqn:Hf; [done|].
  set (i := lower_bound key l).
  pose proof (lower_bound_le key l) as Hle. fold i in Hle.
  assert (forall j e, (j < i)%nat -> l !! j = Some e -> end_ e <= start key)
    as Hbefore.
  { intros j e Hj He. pose proof (lower_bound_before key l j e Hj He) as H.
    rewrite Hc in H. by apply Z.leb_le in H. }
  assert (forall j e, (i <= j)%nat -> l !! j = Some e -> end_ key <= start e)
    as Hafter.
  { intros j e Hj He.
    destruct (l !! i) as [ei|] eqn:Hi.
    - assert (end_ key <= start ei) as H0.
      { unfold set_find in Hf. fold i in Hf. rewrite Hi in Hf.
        destruct (compare_entries key ei) eqn:E; [|done].
        rewrite Hc in E. by apply Z.leb_le in E. }
      destruct (decide (j = i)) as [->|Hne']; [congruence|].
      pose proof (Hne i ei Hi). pose proof (Hord i j ei e Hi He). lia.
    - apply lookup_ge_None in Hi. apply lookup_lt_Some in He. lia. }
  split.
  - intros k e. rewrite lookup_inserted by done.
    repeat destruct (decide _); [apply Hne | by intros [= <-] | apply Hne].
  - intros x y a b. rewrite !lookup_inserted by done.
    repeat destruct (decide _); intros Ha Hb Hxy; try lia.
    + by apply (Hord x y).
    + injection Hb as <-. by apply (Hbefore x).
    + apply (Hord x (y - 1)%nat); [done..|lia].
    + injection Ha as <-. apply (Hafter (y - 1)%nat); [lia | done].
    + apply (Hord (x - 1)%nat (y - 1)%nat); [done..|lia].
Qed.

Lemma read_lines_ordered lines : forall entries b entries',
  compare_entries = compare_entries_spec ->
  (forall line e, line ∈ lines -> ParseLine line = Ok (Some e) ->
     start e < end_ e) ->
  ordered_table entries ->
  read_lines lines entries = Ok (b, entries') ->
  ordered_table entries'.
Proof.
  induction lines as [|line rest IH]; intros entries b entries' Hc Hne Ho; simpl.
  - by intros [= _ <-].
  - intros H. apply bind_Ok in H as ([fresh|] & Hp & H); [|by injection H as _ <-].
    assert (forall l e, l ∈ rest -> ParseLine l = Ok (Some e) -> start e < end_ e)
      as Hne' by (intros l e Hl; apply Hne; by right).
    destruct (set_find fresh entries) eqn:Hf.
    + by eapply IH.
    + eapply IH; [done..| |done].
      apply set_insert_ordered; [done..|]. apply (Hne line); [left | done].
Qed.

(** X10: with the ordering of the design document (an entry comes before
    another when it ends at or before the other's start), a rebuild keeps the
    table in order: if the ranges were in ascending order and none
    overlapped another before, and every line read has a range that is not
    empty, the same holds afterwards, whether or not the rebuild ran to the
    end. *)
Theorem ReadMaps_ordered entries b entries' :
  compare_entries = compare_entries_spec ->
  (forall content line e,
     proc_self_maps = Some content -> line ∈ maps_lines content ->
     ParseLine line = Ok (Some e) -> start e < end_ e) ->
  ordered_table entries ->
  ReadMaps entries = Ok (b, entries') ->
  ordered_table entries'.
Proof.
  intros Hc Hne Ho. unfold ReadMaps.
  destruct proc_self_maps as [content|] eqn:E; [|by intros [= _ <-]].
  apply read_lines_ordered; [done| |done].
  intros line e. by apply Hne.
Qed.

(** X11: with that ordering and a key that is the one-byte range at [pc],
    the lookup in an ordered table returns an entry exactly when the range of
    the entry holds [pc], start included and end excluded. *)
Theorem set_find_range l i e pc :
  compare_entries = compare_entries_spec -> pc_entry = pc_entry_spec ->
  ordered_table l ->
  set_find (pc_entry pc) l = Some (i, e)
  <-> l !! i = Some e /\ start e <= pc < end_ e.
Proof.
  intros Hc Hk Ho. split.
  - intros H. apply set_find_inv in H as (Hi & H1 & H2 & _).
    rewrite Hc, Hk in H1, H2. unfold compare_entries_spec in *. simpl in *.
    apply Z.leb_gt in H1, H2. split; [done | lia].
  - intros [Hi Hpc]. by apply set_find_containing.
Qed.

End Table.

Section Resolution.
Context `{env : Env}.

(** ** What resolution leaves of the table *)

Lemma same_mapping_trans a b c :
  same_mapping a b -> same_mapping b c -> same_mapping a c.
Proof.
  unfold same_mapping. intros (?&?&?&?&?) (?&?&?&?&?).
  repeat split; congruence.
Qed.

Lemma Forall2_same_mapping_refl l : Forall2 same_mapping l l.
Proof. induction l; constructor; [apply same_mapping_refl | done]. Qed.

(** Replacing an entry by one of the same mapping. *)
Lemma Forall2_same_mapping_insert l l' i e e' :
  Forall2 same_mapping l l' -> l' !! i = Some e -> same_mapping e e' ->
  Forall2 same_mapping l (<[i := e']> l').
Proof.
  intros H Hi Hs. apply Forall2_lookup. intros j.
  destruct (decide (j = i)) as [->|Hne].
  - rewrite list_lookup_insert_eq by (by apply lookup_lt_Some in Hi).
    pose proof (Forall2_lookup_r _ _ _ _ _ H Hi) as (x & Hx & Hxe).
    rewrite Hx. constructor. by eapply same_mapping_trans.
  - rewrite list_lookup_insert_ne by done.
    by apply (proj1 (Forall2_lookup _ _ _) H).
Qed.

Lemma store_rel_pc_same_mapping entries i e pc entries' r :
  entries !! i = Some e ->
  store_rel_pc entries i e pc = Ok (entries', r) ->
  Forall2 same_mapping entries entries'.
Proof.
  intros Hi. unfold store_rel_pc.
  destruct (negb (valid e) && negb (Nat.eqb i 0)) eqn:Ec;
    [|intros [= <- _]; apply Forall2_same_mapping_refl].
  apply andb_true_iff in Ec as [_ Ec]. apply negb_true_iff, Nat.eqb_neq in Ec.
  destruct (entries !! (i - 1)%nat) as [p|] eqn:Hp;
    [|intros [= <- _]; apply Forall2_same_mapping_refl].
  destruct (_ && _); [|intros [= <- _]; apply Forall2_same_mapping_refl].
  intros H. apply bind_Ok in H as (p' & Hinit & H).
  apply Init_same_mapping in Hinit as [Hs _].
  assert (Forall2 same_mapping entries (<[(i - 1)%nat := p']> entries)) as H1.
  { eapply Forall2_same_mapping_insert;
      [apply Forall2_same_mapping_refl | done..]. }
  destruct (valid p'); injection H as <- _; [|done].
  eapply Forall2_same_mapping_insert; [done| |].
  - rewrite list_lookup_insert_ne by lia. done.
  - by repeat split.
Qed.

Lemma ordered_table_same_mapping l l' :
  Forall2 same_mapping l l' -> ordered_table l -> ordered_table l'.
Proof.
  intros H [Hne Hord]. split.
  - intros i e' Hi.
    destruct (Forall2_lookup_r _ _ _ _ _ H Hi) as (e & He & (Hs & Hen & _)).
    pose proof (Hne i e He). lia.
  - intros i j a' b' Ha Hb Hij.
    destruct (Forall2_lookup_r _ _ _ _ _ H Ha) as (a & Ha0 & (_ & Hae & _)).
    destruct (Forall2_lookup_r _ _ _ _ _ H Hb) as (b & Hb0 & (Hbs & _)).
    pose proof (Hord i j a b Ha0 Hb0 Hij). lia.
Qed.

Lemma CalculateRelPc_table entries pc rel_pc entries1 found entries' it r :
  find_entry entries pc = Ok (entries1, found) ->
  CalculateRelPc entries pc rel_pc = Ok (entries', it, r) ->
  Forall2 same_mapping entries1 entries' /\ it = fst <$> found.
Proof.
  intros Hf H.
  unfold CalculateRelPc in H. rewrite Hf in H. simpl in H.
  destruct found as [[i e]|]; [|injection H as <- <- _;
                                 split; [apply Forall2_same_mapping_refl | done]].
  pose proof (find_entry_lookup _ _ _ _ _ Hf) as Hi.
  apply bind_Ok in H as (e' & Hinit & H).
  pose proof (Init_same_mapping _ _ Hinit) as [Hs _].
  assert (Forall2 same_mapping entries1 (<[i := e']> entries1)) as Hupd.
  { eapply Forall2_same_mapping_insert;
      [apply Forall2_same_mapping_refl | done..]. }
  destruct rel_pc as [r0|]; [|injection H as <- <- _; by split].
  apply bind_Ok in H as ([l v] & Hst & H). simpl in H. injection H as <- <- _.
  split; [|done].
  apply store_rel_pc_same_mapping in Hst.
  - eapply Forall2_trans; [|done..].
    intros a b c. apply same_mapping_trans.
  - apply list_lookup_insert_eq. by apply lookup_lt_Some in Hi.
Qed.

(** X12: resolution changes no mapping.  The table [CalculateRelPc] leaves
    has, entry for entry, the ranges, file offsets, names and flags of the
    table after the lookup; only the inspection state and the ELF start
    offset of entries may differ.  The iterator it returns is the one the
    lookup found, and an ordered table stays ordered. *)
Theorem CalculateRelPc_same_mappings entries pc rel_pc entries1 found entries' it r :
  find_entry entries pc = Ok (entries1, found) ->
  CalculateRelPc entries pc rel_pc = Ok (entries', it, r) ->
  Forall2 same_mapping entries1 entries'
  /\ it = fst <$> found
  /\ (ordered_table entries1 -> ordered_table entries').
Proof.
  intros Hf H.
  destruct (CalculateRelPc_table _ _ _ _ _ _ _ _ Hf H) as [H1 H2].
  split; [done|]. split; [done|]. by apply ordered_table_same_mapping.
Qed.

(** ** Resolution without a sibling *)

(** X13: the entry found is not a valid ELF image and nothing qualifies
    before it: it is the first of the table, or the entry before it has flags
    other than exactly the read bit, or a file offset that is not smaller, or
    another name.  Then the relative pc is [pc - entry.start +
    entry.load_bias], the entry before is left as it is, uninspected if it
    was, and no ELF start offset is recorded. *)
Theorem CalculateRelPc_no_sibling entries pc r0 entries1 i e e' :
  find_entry entries pc = Ok (entries1, Some (i, e)) ->
  Init e = Ok e' ->
  valid e' = false ->
  (i = O
   \/ exists p, entries1 !! (i - 1)%nat = Some p
        /\ (flags p <> PROT_READ \/ offset e <= offset p \/ name p <> name e)) ->
  CalculateRelPc entries pc (Some r0)
  = Ok (<[i := e']> entries1, Some i,
        Some (wrap (pc - start e + load_bias e'))).
Proof.
  intros Hf Hi Hv Hcase.
  destruct (Init_same_mapping _ _ Hi) as [(Hs & _ & Ho & Hn & _) _].
  unfold CalculateRelPc. rewrite Hf. simpl. rewrite Hi. simpl.
  unfold store_rel_pc. rewrite Hv, Hs. simpl.
  destruct Hcase as [->|(p & Hp & Hq)]; [done|].
  destruct (Nat.eqb i 0) eqn:E0; [done|]. apply Nat.eqb_neq in E0. simpl.
  rewrite list_lookup_insert_ne by lia. rewrite Hp.
  assert ((flags p =? PROT_READ) && (offset p <? offset e')
          && String.eqb (name p) (name e') = false) as ->; [|done].
  rewrite Ho, Hn. destruct Hq as [Hq|[Hq|Hq]].
  - apply Z.eqb_neq in Hq. by rewrite Hq.
  - apply Z.ltb_ge in Hq. rewrite Hq. by rewrite andb_false_r.
  - apply String.eqb_neq in Hq. rewrite Hq. by rewrite andb_false_r.
Qed.

(** X14: the entry before qualifies by flags, offset and name but is no
    valid ELF image either.  It has been inspected by then; the relative pc
    is still [pc - entry.start + entry.load_bias] and no ELF start offset is
    recorded. *)
Theorem CalculateRelPc_invalid_sibling entries pc r0 entries1 j e e' p p' :
  find_entry entries pc = Ok (entries1, Some (S j, e)) ->
  Init e = Ok e' ->
  valid e' = false ->
  entries1 !! j = Some p ->
  flags p = PROT_READ -> offset p < offset e -> name p = name e ->
  Init p = Ok p' ->
  valid p' = false ->
  CalculateRelPc entries pc (Some r0)
  = Ok (<[j := p']> (<[S j := e']> entries1), Some (S j),
        Some (wrap (pc - start e + load_bias e'))).
Proof.
  intros Hf Hi Hv Hj Hfl Hoff Hname Hi' Hv'.
  destruct (Init_same_mapping _ _ Hi) as [(Hs & _ & Ho & Hn & _) _].
  unfold CalculateRelPc. rewrite Hf. simpl. rewrite Hi. simpl.
  unfold store_rel_pc. rewrite Hv, Hs. simpl.
  rewrite Nat.sub_0_r, list_lookup_insert_ne by lia.
  rewrite Hj, Hfl, Z.eqb_refl, Ho, Hn, Hname, String.eqb_refl.
  apply Z.ltb_lt in Hoff. rewrite Hoff. simpl.
  rewrite Hi'. simpl. by rewrite Hv'.
Qed.

(** X15: when [CalculateRelPc] returns [nullptr], the lookup missed, a
    rebuild was attempted, the table is the one the rebuild left and
    [*rel_pc] is as it was. *)
Theorem CalculateRelPc_nullptr entries pc rel_pc entries' r :
  CalculateRelPc entries pc rel_pc = Ok (entries', None, r) ->
  r = rel_pc
  /\ set_find (pc_entry pc) entries = None
  /\ set_find (pc_entry pc) entries' = None
  /\ exists b, ReadMaps entries = Ok (b, entries').
Proof.
  unfold CalculateRelPc, find_entry. intros H.
  apply bind_Ok in H as ([l found] & Hf & H).
  apply bind_Ok in Hf as (l1 & Hl1 & [= -> <-]).
  destruct (set_find (pc_entry pc) l) as [[i e]|] eqn:E.
  { apply bind_Ok in H as (e' & _ & H). destruct rel_pc; [|done].
    by apply bind_Ok in H as (x & _ & H). }
  injection H as <- <-.
  destruct (set_find (pc_entry pc) entries) as [[i e]|] eqn:E0.
  { injection Hl1 as <-. congruence. }
  apply bind_Ok in Hl1 as ([b l'] & Hr & [= <-]).
  repeat split; try done. by exists b.
Qed.

End Resolution.

Section Stability.
Context `{env : Env}.

(** ** Resolving the same pc again *)

Lemma lower_bound_same_mapping key l l' :
  compare_respects -> Forall2 same_mapping l l' ->
  lower_bound key l' = lower_bound key l.
Proof.
  intros Hc H. induction H as [|a a' l l' Ha _ IH]; [done|]. simpl.
  destruct (Hc a a' key Ha) as [-> _]. by rewrite IH.
Qed.

Lemma set_find_same_mapping key l l' i e :
  compare_respects -> Forall2 same_mapping l l' ->
  set_find key l = Some (i, e) ->
  exists e', l' !! i = Some e' /\ set_find key l' = Some (i, e').
Proof.
  intros Hc H. unfold set_find. rewrite (lower_bound_same_mapping key l l') by done.
  destruct (l !! lower_bound key l) as [a|] eqn:Ha; [|done].
  destruct (Forall2_lookup_l _ _ _ _ _ H Ha) as (a' & Ha' & Hs).
  rewrite Ha'. destruct (Hc a a' key Hs) as [_ ->].
  destruct (compare_entries key a); [done|]. intros [= <- <-]. by exists a'.
Qed.

Lemma find_entry_found entries pc entries1 i e :
  find_entry entries pc = Ok (entries1, Some (i, e)) ->
  set_find (pc_entry pc) entries1 = Some (i, e).
Proof.
  unfold find_entry. intros H. by apply bind_Ok in H as (l & _ & [= -> H]).
Qed.

Lemma find_entry_hit entries pc i e :
  set_find (pc_entry pc) entries = Some (i, e) ->
  find_entry entries pc = Ok (entries, Some (i, e)).
Proof. intros H. unfold find_entry. rewrite H. simpl. by rewrite H. Qed.

Lemma Init_inspected_id e : init e = true -> Init e = Ok e.
Proof. intros H. unfold Init. by rewrite H. Qed.

(** The store through [rel_pc], repeated on the table it left. *)
Lemma store_rel_pc_stable entries i e pc entries' r :
  entries !! i = Some e ->
  store_rel_pc entries i e pc = Ok (entries', r) ->
  exists x, entries' !! i = Some x /\ init x = init e
            /\ store_rel_pc entries' i x pc = Ok (entries', r).
Proof.
  intros Hi H. pose proof H as H0. unfold store_rel_pc in H.
  destruct (negb (valid e) && negb (Nat.eqb i 0)) eqn:Ec;
    [|injection H as <- <-; by exists e].
  pose proof Ec as Ec'.
  apply andb_true_iff in Ec' as [Hv Hne].
  apply negb_true_iff in Hv. apply negb_true_iff, Nat.eqb_neq in Hne.
  destruct (entries !! (i - 1)%nat) as [p|] eqn:Hp;
    [|injection H as <- <-; by exists e].
  destruct ((flags p =? PROT_READ) && (offset p <? offset e)
            && String.eqb (name p) (name e)) eqn:Eq;
    [|injection H as <- <-; by exists e].
  apply bind_Ok in H as (p' & Hinit & H).
  pose proof (Init_same_mapping _ _ Hinit) as [(_ & _ & Hpo & Hpn & Hpf) _].
  pose proof (Init_inspected_id _ (Init_inspected _ _ Hinit)) as Hid.
  assert (i - 1 < length entries)%nat as Hlt by (by apply lookup_lt_Some in Hp).
  assert (i < length entries)%nat as Hlti by (by apply lookup_lt_Some in Hi).
  destruct (valid p') eqn:Hvp; injection H as <- <-.
  - set (x := set_elf_start_offset (offset p') e).
    set (T := <[(i - 1)%nat := p']> entries).
    assert (T !! (i - 1)%nat = Some p') as HTp
      by (by apply list_lookup_insert_eq).
    exists x.
    split; [apply list_lookup_insert_eq; unfold T; by rewrite length_insert|].
    split; [done|].
    unfold store_rel_pc.
    change (valid x) with (valid e). change (offset x) with (offset e).
    change (name x) with (name e). change (start x) with (start e).
    rewrite Ec, list_lookup_insert_ne, HTp by lia.
    rewrite Hpf, Hpo, Hpn, Eq. rewrite Hid. simpl. rewrite Hvp.
    change (set_elf_start_offset (offset p') x) with x.
    rewrite (list_insert_id (<[i := x]> T) (i - 1)%nat p')
      by (by rewrite list_lookup_insert_ne by lia).
    by rewrite list_insert_insert_eq.
  - exists e. split; [by rewrite list_lookup_insert_ne by lia|]. split; [done|].
    unfold store_rel_pc. rewrite Ec.
    rewrite list_lookup_insert_eq by done.
    rewrite Hpf, Hpo, Hpn, Eq. rewrite Hid. simpl. rewrite Hvp.
    by rewrite list_insert_insert_eq.
Qed.

(** X16: resolution is stable.  If the ordering looks at the mapping fields
    only, resolving the same pc again on the table the first call left
    returns the same entry and the same relative pc and leaves that table as
    it is; no rebuild takes place and nothing is inspected anew. *)
Theorem CalculateRelPc_stable entries pc r0 entries' i r :
  compare_respects ->
  CalculateRelPc entries pc (Some r0) = Ok (entries', Some i, Some r) ->
  forall r1, CalculateRelPc entries' pc (Some r1) = Ok (entries', Some i, Some r).
Proof.
  intros Hc H r1. pose proof H as Hcall. unfold CalculateRelPc in H.
  apply bind_Ok in H as ([entries1 found] & Hf & H).
  destruct found as [[i0 e]|]; [|done].
  apply bind_Ok in H as (e' & Hinit & H).
  apply bind_Ok in H as ([l v] & Hst & H). simpl in H.
  injection H as -> -> ->.
  pose proof (find_entry_lookup _ _ _ _ _ Hf) as Hi.
  assert (<[i := e']> entries1 !! i = Some e') as Hi'
    by (apply list_lookup_insert_eq; by apply lookup_lt_Some in Hi).
  destruct (store_rel_pc_stable _ _ _ _ _ _ Hi' Hst) as (x & Hx & Hxi & Hagain).
  rewrite (Init_inspected _ _ Hinit) in Hxi.
  destruct (CalculateRelPc_table _ _ _ _ _ _ _ _ Hf Hcall) as (Hsame & _).
  destruct (set_find_same_mapping _ _ _ _ _ Hc Hsame (find_entry_found _ _ _ _ _ Hf))
    as (x' & Hx' & Hfind).
  assert (x' = x) as -> by congruence.
  unfold CalculateRelPc. rewrite (find_entry_hit _ _ _ _ Hfind). simpl.
  rewrite (Init_inspected_id _ Hxi). simpl.
  rewrite (list_insert_id _ _ _ Hx). by rewrite Hagain.
Qed.

End Stability.

Section Formatting.
Context `{env : Env}.

(** ** The loop of FormatBacktrace *)

Lemma format_loop_formatted st cursor l1 st1 l2 :
  formatted st cursor l1 st1 ->
  format_loop st cursor (l1 ++ l2) = format_loop st1 (cursor + length l1) l2.
Proof.
  induction 1 as [st c|st c f st1 l st2 Hf _ IH]; simpl.
  - by rewrite Nat.add_0_r.
  - rewrite Hf. simpl. rewrite IH. f_equal. lia.
Qed.

Lemma append_empty_r (s : string) : (s ++ EmptyString)%string = s.
Proof. induction s as [|c s IH]; simpl; [done | by rewrite IH]. Qed.

Lemma append_assoc3 (s t u : string) : ((s ++ t) ++ u = s ++ t ++ u)%string.
Proof. induction s as [|c s IH]; simpl; [done | by rewrite IH]. Qed.

(** What one iteration does to the text. *)
Lemma format_frame_text st cursor frame r :
  format_frame st cursor frame = Ok r ->
  match r with
  | inl st' =>
      f_str st' = f_str st
      /\ exists i e, f_entries st' !! i = Some e /\ NeedIgnore e = true
  | inr st' =>
      exists line, f_str st' = (f_str st ++ line)%string
                   /\ (String.length line <= 1023)%nat
  end.
Proof.
  unfold format_frame. intros H.
  apply bind_Ok in H as ([[entries it] cell] & _ & H).
  destruct it as [i|]; [|done].
  destruct (entries !! i) as [e|] eqn:He; [|done].
  destruct (NeedIgnore e) eqn:Hn.
  - injection H as <-. split; [done|]. by exists i, e.
  - injection H as <-. eexists. split; [done|].
    assert (forall n s, (String.length (String.substring 0 n s) <= n)%nat) as Hsub.
    { induction n as [|n IH]; intros [|c s]; simpl; try lia.
      specialize (IH s). lia. }
    destruct (match dladdr frame with Some i0 => dli_sname i0 | None => f_symbol st end);
      apply (Hsub 1023%nat).
Qed.

(** X17: a frame that resolution does not find ends the process, wherever it
    stands in the backtrace, as long as the loop reaches it. *)
Theorem FormatBacktrace_unresolved entries pre st1 frame rest entries1 :
  formatted (mkFmt entries EmptyString 0 None) O pre st1 ->
  find_entry (f_entries st1) frame = Ok (entries1, None) ->
  FormatBacktrace entries (pre ++ frame :: rest) = Fault NullDeref.
Proof.
  intros Hpre Hf. unfold FormatBacktrace.
  rewrite (format_loop_formatted _ _ _ _ _ Hpre). simpl.
  by rewrite (format_frame_unresolved _ _ _ _ Hf).
Qed.

(** X18: a frame whose entry is to be ignored ends the backtrace: the text
    returned is the text of the frames before it, without a line for the
    frame itself, and the frames after it play no part. *)
Theorem FormatBacktrace_truncates entries pre st1 frame st2 rest :
  formatted (mkFmt entries EmptyString 0 None) O pre st1 ->
  format_frame st1 (length pre) frame = Ok (inl st2) ->
  FormatBacktrace entries (pre ++ frame :: rest) = Ok (f_entries st2, f_str st1)
  /\ exists i e, f_entries st2 !! i = Some e /\ NeedIgnore e = true.
Proof.
  intros Hpre Hf. pose proof (format_frame_text _ _ _ _ Hf) as [Hs He].
  split; [|done]. unfold FormatBacktrace.
  rewrite (format_loop_formatted _ _ _ _ _ Hpre). simpl.
  rewrite Hf. simpl. by rewrite Hs.
Qed.

(** X19: the text grows by one piece of at most 1023 characters for each
    frame the loop goes through, in the order of the frames. *)
Theorem formatted_lines st cursor frames st' :
  formatted st cursor frames st' ->
  exists lines,
    length lines = length frames
    /\ f_str st' = (f_str st ++ join_lines lines)%string
    /\ Forall (fun line => (String.length line <= 1023)%nat) lines.
Proof.
  induction 1 as [st c|st c f st1 l st2 Hf _ (lines & Hlen & Hstr & Hall)].
  - exists []. split; [done|]. split; [|constructor].
    unfold join_lines. simpl. by rewrite append_empty_r.
  - apply format_frame_text in Hf as (line & Hline & Hle).
    exists (line :: lines). split; [simpl; by rewrite Hlen|].
    split; [|by constructor].
    rewrite Hstr, Hline. unfold join_lines. simpl. apply append_assoc3.
Qed.

(** ** The pc column *)

Lemma digits_loop_length base fuel : forall n z acc,
  1 < base -> (1 <= n)%nat -> 0 <= z < base ^ Z.of_nat n ->
  (String.length (digits_loop fuel base z acc) <= n + String.length acc)%nat.
Proof.
  induction fuel as [|fuel IH]; intros n z acc Hb Hn Hz; simpl; [lia|].
  destruct (z / base =? 0) eqn:E; [simpl; lia|].
  apply Z.eqb_neq in E.
  assert (base <= z) as Hbz.
  { destruct (Z_lt_le_dec z base) as [Hlt|]; [|done].
    rewrite Z.div_small in E by lia. done. }
  destruct n as [|[|n]]; [lia| |].
  - change (Z.of_nat 1) with 1 in Hz. rewrite Z.pow_1_r in Hz. lia.
  - specialize (IH (S n) (z / base) (String (digit_char (z mod base)) acc) Hb).
    simpl String.length in IH.
    assert (0 <= z / base < base ^ Z.of_nat (S n)) as Hq.
    { split; [apply Z.div_pos; lia|].
      apply Z.div_lt_upper_bound; [lia|].
      rewrite <- Z.pow_succ_r by lia.
      replace (Z.succ (Z.of_nat (S n))) with (Z.of_nat (S (S n))) by lia. lia. }
    specialize (IH ltac:(lia) Hq). lia.
Qed.

Lemma zeros_length n : String.length (zeros n) = n.
Proof. induction n as [|n IH]; simpl; [done | by rewrite IH]. Qed.

(** X20: the relative pc is printed in a column of fixed width, 16
    characters for 64-bit pointers and 8 for 32-bit ones, whatever its
    value. *)
Theorem fmt_PAD_PTR_length v :
  String.length (fmt_PAD_PTR v) = if lp64 then 16%nat else 8%nat.
Proof.
  unfold fmt_PAD_PTR, zero_pad, digits.
  rewrite length_append, zeros_length.
  pose proof (wrap_range v) as Hr. unfold ptr_mod, ptr_bits in Hr.
  set (d := digits_loop _ _ _ _).
  assert (String.length d <= (if lp64 then 16 else 8))%nat as Hd.
  { pose proof (digits_loop_length 16 (S (Z.to_nat (Z.log2 (wrap v))))
                  (if lp64 then 16 else 8)%nat (wrap v) EmptyString) as H.
    simpl String.length in H. rewrite Nat.add_0_r in H. apply H; [lia| |].
    - destruct lp64; lia.
    - destruct lp64; simpl; lia. }
  destruct lp64; lia.
Qed.

End Formatting.

Section Reading.
Context `{env : Env}.

(** ** The lines of the mapping description *)

Lemma fgets_length n : forall s,
  (String.length (fgets n s).1 <= n)%nat
  /\ (s <> EmptyString -> (0 < n)%nat -> (1 <= String.length (fgets n s).1)%nat).
Proof.
  induction n as [|n IH]; intros [|c s]; simpl; try (split; [lia | done || lia]).
  destruct (Ascii.eqb c newline); [simpl; split; lia|].
  destruct (IH s) as [IH1 _]. destruct (fgets n s) as [l r]. simpl in *.
  split; lia.
Qed.

(** X21: the loop of [ReadMaps] sees the mapping description in consecutive
    pieces that together are the whole text, each of at least one and at most
    1023 characters: a longer line reaches [ParseLine] in several pieces. *)
Theorem maps_lines_pieces content :
  join_lines (maps_lines content) = content
  /\ Forall (fun line => (1 <= String.length line <= 1023)%nat)
            (maps_lines content).
Proof.
  split; [apply maps_lines_whole|]. unfold maps_lines.
  generalize (String.length content) as fuel. intros fuel. revert content.
  induction fuel as [|fuel IH]; intros [|c s]; try by constructor.
  rewrite fgets_lines_step. constructor; [|apply IH].
  destruct (fgets_length 1023 (String c s)) as [H1 H2].
  split; [apply H2; [done | lia] | done].
Qed.

End Reading.

Section Rebuild.
Context `{env : Env}.

(** ** A second rebuild *)

(** In an ordered table the lookup of a range hits as soon as some entry
    overlaps it. *)
Lemma set_find_overlap key l k x :
  compare_entries = compare_entries_spec -> ordered_table l ->
  l !! k = Some x -> overlaps x key ->
  exists p, set_find key l = Some p.
Proof.
  intros Hc [Hne Hord] Hk [Ho1 Ho2].
  set (i := lower_bound key l).
  assert (i <= k)%nat as Hik.
  { destruct (le_lt_dec i k) as [|Hlt]; [done|].
    pose proof (lower_bound_before key l k x Hlt Hk) as H.
    rewrite Hc in H. apply Z.leb_le in H. lia. }
  destruct (l !! i) as [ei|] eqn:Hi.
  2:{ apply lookup_ge_None in Hi. apply lookup_lt_Some in Hk. lia. }
  unfold set_find. fold i. rewrite Hi.
  assert (compare_entries key ei = false) as ->; [|by eexists].
  rewrite Hc. apply Z.leb_gt.
  destruct (decide (i = k)) as [->|Hneq].
  - assert (ei = x) as -> by congruence. done.
  - pose proof (Hord i k ei x Hi Hk ltac:(lia)). pose proof (Hne i ei Hi). lia.
Qed.

(** After a rebuild that ran to the end, every line has an entry in the table
    that overlaps the entry parsed from it. *)
Lemma read_lines_covered lines : forall entries entries',
  compare_entries = compare_entries_spec ->
  (forall line e, line ∈ lines -> ParseLine line = Ok (Some e) ->
     start e < end_ e) ->
  read_lines lines entries = Ok (true, entries') ->
  forall line, line ∈ lines ->
    exists e k x, ParseLine line = Ok (Some e)
                  /\ entries' !! k = Some x /\ overlaps x e.
Proof.
  induction lines as [|l0 rest IH]; intros entries entries' Hc Hne H line Hl.
  { by apply elem_of_nil in Hl. }
  simpl in H. apply bind_Ok in H as ([fresh|] & Hp & H); [|done].
  assert (forall l e, l ∈ rest -> ParseLine l = Ok (Some e) -> start e < end_ e)
    as Hne' by (intros l e Hin; apply Hne; by right).
  assert (start fresh < end_ fresh) as Hfresh by (apply (Hne l0); [left | done]).
  apply elem_of_cons in Hl as [->|Hl].
  - exists fresh.
    assert (exists mid x, read_lines rest mid = Ok (true, entries')
                          /\ x ∈ mid /\ overlaps x fresh)
      as (mid & x & Hmid & Hx & Hov).
    { destruct (set_find fresh entries) as [[i x]|] eqn:Hf.
      - exists entries, x. split; [done|].
        apply set_find_inv in Hf as (Hi & H1 & H2 & _).
        split; [by eapply list_elem_of_lookup_2|].
        rewrite Hc in H1, H2. unfold compare_entries_spec in *.
        apply Z.leb_gt in H1, H2. split; lia.
      - exists (set_insert fresh entries), fresh. split; [done|].
        split; [|by split].
        unfold set_insert. rewrite Hf. rewrite elem_of_app, elem_of_cons. auto. }
    apply read_lines_keeps in Hmid as [Hsub _].
    pose proof (elem_of_sublist _ _ _ Hx Hsub) as Hin.
    apply list_elem_of_lookup_1 in Hin as [k Hk]. by exists k, x.
  - destruct (set_find fresh entries); by eapply IH.
Qed.

(** A rebuild over lines that are all covered changes nothing. *)
Lemma read_lines_fixed lines : forall entries,
  compare_entries = compare_entries_spec -> ordered_table entries ->
  (forall line, line ∈ lines ->
     exists e k x, ParseLine line = Ok (Some e)
                   /\ entries !! k = Some x /\ overlaps x e) ->
  read_lines lines entries = Ok (true, entries).
Proof.
  induction lines as [|l0 rest IH]; intros entries Hc Ho Hcov; [done|].
  destruct (Hcov l0) as (e & k & x & Hp & Hk & Hov); [by left|].
  simpl. rewrite Hp. simpl.
  destruct (set_find_overlap e entries k x Hc Ho Hk Hov) as [p ->].
  apply IH; [done..|]. intros line Hl. apply Hcov. by right.
Qed.

(** X22: with the ordering of the design document, a rebuild that ran to the
    end is not to be repeated: as long as the mapping description is the
    same, a second rebuild adds nothing to the table and leaves every entry,
    with its inspection state, in place. *)
Theorem ReadMaps_twice entries entries' :
  compare_entries = compare_entries_spec ->
  (forall content line e,
     proc_self_maps = Some content -> line ∈ maps_lines content ->
     ParseLine line = Ok (Some e) -> start e < end_ e) ->
  ordered_table entries ->
  ReadMaps entries = Ok (true, entries') ->
  ReadMaps entries' = Ok (true, entries').
Proof.
  intros Hc Hne Ho H. unfold ReadMaps in *.
  destruct proc_self_maps as [content|] eqn:E; [|done].
  assert (forall line e, line ∈ maps_lines content ->
            ParseLine line = Ok (Some e) -> start e < end_ e) as Hne'
    by (intros line e; by apply Hne).
  apply read_lines_fixed; [done| |].
  - by eapply read_lines_ordered.
  - by eapply read_lines_covered.
Qed.

End Rebuild.

(** * The further properties at work *)

(** ** Reads *)

Lemma libbar_mapped : mapped (env := env_libbar) libbar_entry.
Proof.
  intros a Ha. simpl in Ha. unfold mem, env_libbar, libbar_mem, mem_over.
  destruct (mem_of_bytes _ _ a); [by eexists|].
  unfold mem_zero.
  destruct (Z.leb_spec 0x7200000000 a); [|lia].
  destruct (Z.ltb_spec a 0x7200002000); [|lia]. by eexists.
Qed.

(** The read of [e_phnum] of [libbar]. *)
Lemma GetVal_sound_witness :
  Z.land (flags libbar_entry) PROT_READ <> 0
  /\ start libbar_entry <= 0x7200000038
  /\ Z.land 0x7200000038 (2 - 1) = 0
  /\ deref (env := env_libbar) 0x7200000038 2 = Ok 2
  /\ (0 <= 0x7200000038 + 2 < ptr_mod (env := env_libbar) ->
      0x7200000038 + 2 <= end_ libbar_entry).
Proof.
  refine (GetVal_sound (env := env_libbar) libbar_entry 0x7200000038 2 2 _).
  vm_compute. reflexivity.
Defined.

(** A read of eight bytes that starts in the last four of [libbar]. *)
Lemma GetVal_no_fault_witness :
  exists r, GetVal (env := env_libbar) libbar_entry 0x7200001ffc 8 = Ok r.
Proof.
  refine (GetVal_no_fault (env := env_libbar) libbar_entry 0x7200001ffc 8 _ _ _).
  - exact libbar_mapped.
  - lia.
  - vm_compute. split; [discriminate | reflexivity].
Defined.

Lemma ValidElf_no_fault_witness :
  exists b, ValidElf (env := env_libbar) libbar_entry = Ok b.
Proof.
  refine (proj1 (ValidElf_no_fault (env := env_libbar) libbar_entry) _).
  exact libbar_mapped.
Defined.

Lemma Init_frame_witness :
  same_mapping libbar_entry
    (set_load_bias 0x4000 (set_valid true (set_init true libbar_entry)))
  /\ elf_start_offset
       (set_load_bias 0x4000 (set_valid true (set_init true libbar_entry)))
     = elf_start_offset libbar_entry
  /\ init (set_load_bias 0x4000 (set_valid true (set_init true libbar_entry)))
     = true
  /\ forall env' : Env,
       @Init env' (set_load_bias 0x4000 (set_valid true (set_init true libbar_entry)))
       = Ok (set_load_bias 0x4000 (set_valid true (set_init true libbar_entry))).
Proof.
  refine (Init_frame (env := env_libbar) libbar_entry _ _).
  vm_compute. reflexivity.
Defined.

(** ** Mapping lines *)

Lemma ParseLine_fields_witness :
  start apk_code_entry = 0x7100001000 /\ end_ apk_code_entry = 0x7100003000
  /\ offset apk_code_entry = 0x3000
  /\ flags apk_code_entry = PROT_READ + PROT_EXEC
  /\ load_bias apk_code_entry = 0 /\ elf_start_offset apk_code_entry = 0
  /\ valid apk_code_entry = false /\ init apk_code_entry = negb true.
Proof.
  refine (proj2 (ParseLine_fields (env := env_apk) apk_code_line) apk_code_entry _).
  vm_compute. reflexivity.
Defined.

Lemma ParseLine_name_witness :
  exists pre,
    Z.of_nat (String.length pre) = 47
    /\ (apk_code_line = (pre ++ name apk_code_entry ++ nl)%string
        \/ (apk_code_line = (pre ++ name apk_code_entry)%string
            /\ ends_with_newline (name apk_code_entry) = false)).
Proof.
  refine (ParseLine_name (env := env_apk) apk_code_line apk_code_entry _).
  vm_compute. reflexivity.
Defined.

(** ** The container and the rebuild *)

Lemma libfoo_entries_ordered : ordered_table libfoo_entries.
Proof.
  split.
  - intros [|[|i]] e H; simplify_eq/=; lia.
  - intros [|[|i]] [|[|j]] a b Ha Hb Hij; simplify_eq/=; lia.
Qed.

Lemma compare_entries_spec_respects (env : Env) :
  compare_entries = compare_entries_spec -> compare_respects.
Proof.
  intros Hc a a' b (Hs & He & _). rewrite Hc. unfold compare_entries_spec.
  by rewrite Hs, He.
Qed.

(** The stale entry, inserted in the table of [libfoo]. *)
Lemma set_insert_find_witness :
  exists i e,
    set_find (env := env_libfoo) stale_entry
      (set_insert (env := env_libfoo) stale_entry libfoo_entries) = Some (i, e)
    /\ (set_find (env := env_libfoo) stale_entry libfoo_entries = Some (i, e)
        \/ (set_find (env := env_libfoo) stale_entry libfoo_entries = None
            /\ e = stale_entry
            /\ i = lower_bound (env := env_libfoo) stale_entry libfoo_entries)).
Proof.
  refine (set_insert_find (env := env_libfoo) stale_entry libfoo_entries _).
  vm_compute. reflexivity.
Defined.

(** The second line of [bad_maps] is no mapping: the rebuild ends there, with
    the first line in the table and the third unread. *)
Lemma ReadMaps_bad_line_witness :
  ReadMaps (env := env_bad_maps) []
  = Ok (false,
        [mkMapEntry 0x7000000000 0x7000001000 0 0 0
                    "/system/lib64/libfoo.so" 1 false false]).
Proof.
  refine (ReadMaps_bad_line (env := env_bad_maps) [] bad_maps
            [("7000000000-7000001000 r--p 00000000 fd:00 1234   /system/lib64/libfoo.so" ++ nl)%string]
            ("not a mapping" ++ nl)%string
            [("7000001000-7000003000 r-xp 00001000 fd:00 1234   /system/lib64/libfoo.so" ++ nl)%string]
            _ _ _ _ _).
  - reflexivity.
  - vm_compute. reflexivity.
  - vm_compute. reflexivity.
  - vm_compute. reflexivity.
Defined.

(** The table built from [libfoo_maps]. *)
Lemma ReadMaps_ordered_witness : ordered_table libfoo_entries.
Proof.
  refine (ReadMaps_ordered (env := env_libfoo) [] true libfoo_entries _ _ _ _).
  - reflexivity.
  - intros content line e [= <-] Hl Hp.
    set (ls := maps_lines libfoo_maps) in Hl. vm_compute in ls. subst ls.
    rewrite !elem_of_cons, elem_of_nil in Hl.
    destruct Hl as [->|[->|[]]]; vm_compute in Hp; injection Hp as <-;
      vm_compute; reflexivity.
  - split; intros; simplify_eq/=.
  - vm_compute. reflexivity.
Defined.

(** The first byte of the code of [libfoo] is found, the first byte after it
    is not. *)
Lemma set_find_range_witness :
  (set_find (env := env_libfoo) (pc_entry_spec 0x7000001000) libfoo_entries
   = Some (1%nat, mkMapEntry 0x7000001000 0x7000003000 0x1000 0 0
                            "/system/lib64/libfoo.so" 5 false false)
   <-> libfoo_entries !! 1%nat
       = Some (mkMapEntry 0x7000001000 0x7000003000 0x1000 0 0
                          "/system/lib64/libfoo.so" 5 false false)
       /\ 0x7000001000 <= 0x7000001000 < 0x7000003000)
  /\ set_find (env := env_libfoo) (pc_entry_spec 0x7000003000) libfoo_entries
     = None.
Proof.
  split.
  - refine (set_find_range (env := env_libfoo) libfoo_entries 1%nat _
              0x7000001000 _ _ _); [reflexivity | reflexivity |].
    exact libfoo_entries_ordered.
  - vm_compute. reflexivity.
Defined.

(** ** Resolution *)

(** The split module of the archive: the three entries keep their mappings
    and the table stays ordered. *)
Lemma CalculateRelPc_same_mappings_witness :
  Forall2 same_mapping apk_entries
    [ set_load_bias 0x4000 (set_valid true (set_init true apk_header_entry));
      set_elf_start_offset 0x2000 (set_init true apk_code_entry);
      apk_guard_entry ]
  /\ Some 1%nat = fst <$> Some (1%nat, apk_code_entry)
  /\ (ordered_table apk_entries ->
      ordered_table
        [ set_load_bias 0x4000 (set_valid true (set_init true apk_header_entry));
          set_elf_start_offset 0x2000 (set_init true apk_code_entry);
          apk_guard_entry ]).
Proof.
  refine (CalculateRelPc_same_mappings (env := env_apk)
            apk_entries 0x7100001234 (Some 0) apk_entries
            (Some (1%nat, apk_code_entry)) _ (Some 1%nat) (Some 0x7234) _ _).
  - vm_compute. reflexivity.
  - vm_compute. reflexivity.
Defined.

(** A pc in the mapping without permissions that follows the code of the
    archive: the code mapping before it has the execute bit and is left
    alone. *)
Lemma CalculateRelPc_no_sibling_witness :
  CalculateRelPc (env := env_apk) apk_entries 0x7100003010 (Some 7)
  = Ok (apk_entries, Some 2%nat, Some 0x10).
Proof.
  refine (CalculateRelPc_no_sibling (env := env_apk)
            apk_entries 0x7100003010 7 apk_entries 2%nat
            apk_guard_entry apk_guard_entry _ _ _ _).
  - vm_compute. reflexivity.
  - vm_compute. reflexivity.
  - reflexivity.
  - right. exists apk_code_entry. split; [reflexivity|]. left. discriminate.
Defined.

(** A pc in the second mapping of a file that is no ELF image. *)
Lemma CalculateRelPc_invalid_sibling_witness :
  CalculateRelPc (env := env_blob) [blob_header_entry; blob_code_entry]
    0x7500001010 (Some 7)
  = Ok ([set_init true blob_header_entry; set_init true blob_code_entry],
        Some 1%nat, Some 0x10).
Proof.
  refine (CalculateRelPc_invalid_sibling (env := env_blob)
            [blob_header_entry; blob_code_entry] 0x7500001010 7
            [blob_header_entry; blob_code_entry] O
            blob_code_entry (set_init true blob_code_entry)
            blob_header_entry (set_init true blob_header_entry)
            _ _ _ _ _ _ _ _ _).
  - vm_compute. reflexivity.
  - vm_compute. reflexivity.
  - reflexivity.
  - reflexivity.
  - reflexivity.
  - simpl. lia.
  - reflexivity.
  - vm_compute. reflexivity.
  - reflexivity.
Defined.

(** An address below every mapping of [libfoo]. *)
Lemma CalculateRelPc_nullptr_witness :
  Some 7 = Some 7
  /\ set_find (env := env_libfoo) (pc_entry_spec 0x10) libfoo_entries = None
  /\ set_find (env := env_libfoo) (pc_entry_spec 0x10) libfoo_entries = None
  /\ exists b, ReadMaps (env := env_libfoo) libfoo_entries = Ok (b, libfoo_entries).
Proof.
  refine (CalculateRelPc_nullptr (env := env_libfoo)
            libfoo_entries 0x10 (Some 7) libfoo_entries (Some 7) _).
  vm_compute. reflexivity.
Defined.

(** The pc in the code of the archive, resolved a second time. *)
Lemma CalculateRelPc_stable_witness :
  CalculateRelPc (env := env_apk)
    [ set_load_bias 0x4000 (set_valid true (set_init true apk_header_entry));
      set_elf_start_offset 0x2000 (set_init true apk_code_entry);
      apk_guard_entry ]
    0x7100001234 (Some 99)
  = Ok ([ set_load_bias 0x4000 (set_valid true (set_init true apk_header_entry));
          set_elf_start_offset 0x2000 (set_init true apk_code_entry);
          apk_guard_entry ],
        Some 1%nat, Some 0x7234).
Proof.
  refine (CalculateRelPc_stable (env := env_apk)
            apk_entries 0x7100001234 0 _ 1%nat 0x7234 _ _ 99).
  - by apply compare_entries_spec_respects.
  - vm_compute. reflexivity.
Defined.

(** ** Formatting *)

(** The state after the first frame of the backtraces below. *)
Lemma libfoo_first_frame :
  formatted (env := env_libfoo) (mkFmt libfoo_entries EmptyString 0 None) O
    [0x7000001234]
    (mkFmt [ set_load_bias 0 (set_valid true (set_init true
               (mkMapEntry 0x7000000000 0x7000001000 0 0 0
                           "/system/lib64/libfoo.so" 1 false false)));
             set_init true
               (mkMapEntry 0x7000001000 0x7000003000 0x1000 0 0
                           "/system/lib64/libfoo.so" 5 false false) ]
           ("          #00  pc 0000000000001234  /system/lib64/libfoo.so" ++ nl)
           0 None).
Proof.
  eapply formatted_cons; [|apply formatted_nil]. vm_compute. reflexivity.
Qed.

(** The second of three frames is in no mapping. *)
Lemma FormatBacktrace_unresolved_witness :
  FormatBacktrace (env := env_libfoo) libfoo_entries
    ([0x7000001234] ++ 0x10 :: [0x7000001240])
  = Fault NullDeref.
Proof.
  refine (FormatBacktrace_unresolved (env := env_libfoo) libfoo_entries
            [0x7000001234] _ 0x10 [0x7000001240] _ libfoo_first_frame _).
  vm_compute. reflexivity.
Defined.

(** One line for each of two frames in [libfoo]. *)
Lemma formatted_lines_witness :
  exists lines,
    length lines = length [0x7000001234]
    /\ ("          #00  pc 0000000000001234  /system/lib64/libfoo.so" ++ nl)%string
       = (EmptyString ++ join_lines lines)%string
    /\ Forall (fun line => (String.length line <= 1023)%nat) lines.
Proof.
  exact (formatted_lines (env := env_libfoo) _ _ _ _ libfoo_first_frame).
Defined.

Lemma koom_first_frame :
  formatted (env := env_koom) (mkFmt [libbar_entry; koom_entry] EmptyString 0 None) O
    [0x7200000234]
    (mkFmt [ set_load_bias 0x4000 (set_valid true (set_init true libbar_entry));
             koom_entry ]
           ("          #00  pc 0000000000004234  /system/lib64/libbar.so" ++ nl)
           0 None).
Proof.
  eapply formatted_cons; [|apply formatted_nil]. vm_compute. reflexivity.
Qed.

(** The second of three frames is in the library of the monitor: the text is
    the line of the first frame. *)
Lemma FormatBacktrace_truncates_witness :
  FormatBacktrace (env := env_koom) [libbar_entry; koom_entry]
    ([0x7200000234] ++ 0x7600000010 :: [0x7200000300])
  = Ok ([ set_load_bias 0x4000 (set_valid true (set_init true libbar_entry));
          set_init true koom_entry ],
        ("          #00  pc 0000000000004234  /system/lib64/libbar.so" ++ nl)%string).
Proof.
  refine (proj1 (FormatBacktrace_truncates (env := env_koom)
                   [libbar_entry; koom_entry] [0x7200000234] _ 0x7600000010
                   (mkFmt [ set_load_bias 0x4000
                              (set_valid true (set_init true libbar_entry));
                            set_init true koom_entry ]
                          ("          #00  pc 0000000000004234  /system/lib64/libbar.so" ++ nl)
                          0 None)
                   [0x7200000300] koom_first_frame _)).
  vm_compute. reflexivity.
Defined.

(** A second rebuild from [libfoo_maps]. *)
Lemma ReadMaps_twice_witness :
  ReadMaps (env := env_libfoo) (stale_entry :: libfoo_entries)
  = Ok (true, stale_entry :: libfoo_entries).
Proof.
  refine (ReadMaps_twice (env := env_libfoo) [stale_entry]
            (stale_entry :: libfoo_entries) _ _ _ _).
  - reflexivity.
  - intros content line e [= <-] Hl Hp.
    set (ls := maps_lines libfoo_maps) in Hl. vm_compute in ls. subst ls.
    rewrite !elem_of_cons, elem_of_nil in Hl.
    destruct Hl as [->|[->|[]]]; vm_compute in Hp; injection Hp as <-;
      vm_compute; reflexivity.
  - split.
    + intros [|i] e H; simplify_eq/=; lia.
    + intros [|i] [|j] a b Ha Hb Hij; simplify_eq/=; lia.
  - vm_compute. reflexivity.
Defined.
